(** * Session store, cache layer and chat pipeline of the news-article RAG backend

    A shallow embedding of [sessionManager.js], [reg.js] and the chat route of
    [server.js].  JavaScript values are an inductive type, the Redis client is
    a finite map from keys to a value with its expiry instant, the external
    providers (uuid, embedding API, vector index, generation API) are
    functions of the events seen so far, and every asynchronous function is a
    computation that threads the state and may throw. *)

From Stdlib Require Import ZArith NArith List String Ascii Bool Lia.
From stdpp Require Import gmap strings list fin_maps.

Local Open Scope char_scope.
Local Open Scope string_scope.
Local Open Scope list_scope.
Local Open Scope Z_scope.

(** ** Characters

    A JavaScript string is a sequence of UTF-16 code units.  The embedding
    keeps the code units below 256, so a string is a [string] and a code unit
    an [ascii]; parsing and printing work on [list ascii]. *)

Abbreviation chars := (list ascii) (only parsing).

Definition code (c : ascii) : N := N_of_ascii c.

Definition dquote : ascii := "034".
Definition backslash : ascii := "092".
Definition nl : string := String "010" EmptyString.
Definition str_quote : string := String "034" EmptyString.

Definition of_string (s : string) : chars := list_ascii_of_string s.
Definition to_string (cs : chars) : string := string_of_list_ascii cs.

(** ** Errors and results *)

Inductive JSError : Type :=
| SyntaxError            (* thrown by JSON.parse *)
| TypeError              (* a method of a value that has none, a property of null *)
| RedisError             (* the store rejects the command *)
| RequestError (detail : string)  (* axios or the index client rejects *)
| NoEmbedding            (* new Error("No embedding returned") *)
| OutOfModel             (* valid JavaScript whose value the embedding lacks *)
| OutOfFuel.

Inductive result (A : Type) : Type :=
| Ok (a : A)
| Throw (e : JSError).
Arguments Ok {A} a.
Arguments Throw {A} e.

Definition rbind {A B} (r : result A) (k : A -> result B) : result B :=
  match r with
  | Ok a => k a
  | Throw e => Throw e
  end.

Notation "'let*' x ':=' r 'in' k" := (rbind r (fun x => k))
  (at level 10, x name, r at level 100, k at level 200).
Notation "'let*' ' p ':=' r 'in' k" := (rbind r (fun p => k))
  (at level 10, p pattern, r at level 100, k at level 200).

(** ** Values

    A number is an integer: the embedding has no fractions, and it is
    faithful to JavaScript on the safe integers, where a number prints as its
    decimal digits.  An object lists its members in the order they were
    written. *)

#[local] Unset Elimination Schemes.
Inductive JSValue : Type :=
| JUndefined
| JNull
| JBool (b : bool)
| JNum (z : Z)
| JStr (s : string)
| JArr (l : list JSValue)
| JObj (m : list (string * JSValue)).
#[local] Set Elimination Schemes.

(** A number that may be [NaN], as [parseInt] returns it. *)
Inductive jsnum : Type :=
| NaN
| Int (z : Z).

Definition MAX_SAFE_INTEGER : Z := 9007199254740991.

Definition safe_integer (z : Z) : bool :=
  (- MAX_SAFE_INTEGER <=? z) && (z <=? MAX_SAFE_INTEGER).

(** ** Numbers in positional notation *)

Definition digit_char (d : N) : ascii :=
  if (d <? 10)%N then ascii_of_N (48 + d) else ascii_of_N (87 + d).

Fixpoint radix_digits (base : N) (fuel : nat) (n : N) (acc : chars) : chars :=
  match fuel with
  | O => acc
  | S fuel' =>
      let acc' := digit_char (n mod base) :: acc in
      if (n / base =? 0)%N then acc' else radix_digits base fuel' (n / base) acc'
  end.

Definition N_to_radix (base : N) (n : N) : chars :=
  radix_digits base (S (N.to_nat (N.size n))) n [].

Definition N_to_decimal (n : N) : chars := N_to_radix 10 n.

Definition Z_to_decimal (z : Z) : chars :=
  if z <? 0 then "-"%char :: N_to_decimal (Z.to_N (- z)) else N_to_decimal (Z.to_N z).

Definition is_digit (c : ascii) : bool :=
  ((48 <=? code c) && (code c <=? 57))%N.

Definition digit_val (c : ascii) : N := (code c - 48)%N.

Fixpoint read_digits (s : chars) (acc : N) : N * chars :=
  match s with
  | c :: r => if is_digit c then read_digits r (acc * 10 + digit_val c)%N else (acc, s)
  | [] => (acc, [])
  end.

(** ** JSON.stringify *)

Definition hex_digit (d : N) : ascii := digit_char d.

Definition escape_char (c : ascii) : chars :=
  if Ascii.eqb c dquote then [backslash; dquote]
  else if Ascii.eqb c backslash then [backslash; backslash]
  else if Ascii.eqb c "008" then [backslash; "b"%char]
  else if Ascii.eqb c "012" then [backslash; "f"%char]
  else if Ascii.eqb c "010" then [backslash; "n"%char]
  else if Ascii.eqb c "013" then [backslash; "r"%char]
  else if Ascii.eqb c "009" then [backslash; "t"%char]
  else if (code c <? 32)%N then
    [backslash; "u"%char; "0"%char; "0"%char; hex_digit (code c / 16); hex_digit (code c mod 16)]
  else [c].

Definition quote (cs : chars) : chars :=
  dquote :: flat_map escape_char cs ++ [dquote].

Fixpoint join_comma (parts : list chars) : chars :=
  match parts with
  | [] => []
  | [p] => p
  | p :: rest => p ++ ","%char :: join_comma rest
  end.

(** [ser v] is the text of [v] inside an enclosing array or at the top: an
    [undefined] element of an array is written [null], a member of an object
    whose value is [undefined] is left out. *)
Fixpoint ser (v : JSValue) : chars :=
  match v with
  | JUndefined => of_string "null"
  | JNull => of_string "null"
  | JBool true => of_string "true"
  | JBool false => of_string "false"
  | JNum z => Z_to_decimal z
  | JStr s => quote (of_string s)
  | JArr l => "["%char :: join_comma (map ser l) ++ ["]"%char]
  | JObj m =>
      "{"%char ::
      join_comma
        ((fix members (m : list (string * JSValue)) : list chars :=
            match m with
            | [] => []
            | (k, v) :: m' =>
                match v with
                | JUndefined => members m'
                | _ => (quote (of_string k) ++ ":"%char :: ser v) :: members m'
                end
            end) m)
      ++ ["}"%char]
  end.

(** [JSON.stringify(undefined)] is [undefined], not a string. *)
Definition JSON_stringify (v : JSValue) : option string :=
  match v with
  | JUndefined => None
  | _ => Some (to_string (ser v))
  end.

(** ** JSON.parse *)

Definition is_ws (c : ascii) : bool :=
  Ascii.eqb c " " || Ascii.eqb c "009" || Ascii.eqb c "010" || Ascii.eqb c "013".

Fixpoint skip_ws (s : chars) : chars :=
  match s with
  | c :: r => if is_ws c then skip_ws r else s
  | [] => []
  end.

Fixpoint strip_prefix (p s : chars) : option chars :=
  match p, s with
  | [], _ => Some s
  | a :: p', b :: s' => if Ascii.eqb a b then strip_prefix p' s' else None
  | _ :: _, [] => None
  end.

Definition unescape (e : ascii) : option ascii :=
  if Ascii.eqb e dquote then Some dquote
  else if Ascii.eqb e backslash then Some backslash
  else if Ascii.eqb e "/" then Some "/"%char
  else if Ascii.eqb e "b" then Some "008"%char
  else if Ascii.eqb e "f" then Some "012"%char
  else if Ascii.eqb e "n" then Some "010"%char
  else if Ascii.eqb e "r" then Some "013"%char
  else if Ascii.eqb e "t" then Some "009"%char
  else None.

Definition hex_val (c : ascii) : option N :=
  let n := code c in
  if ((48 <=? n) && (n <=? 57))%N then Some (n - 48)%N
  else if ((97 <=? n) && (n <=? 102))%N then Some (n - 87)%N
  else if ((65 <=? n) && (n <=? 70))%N then Some (n - 55)%N
  else None.

Definition hex4 (a b c d : ascii) : option N :=
  match hex_val a, hex_val b, hex_val c, hex_val d with
  | Some x, Some y, Some z, Some w => Some (((x * 16 + y) * 16 + z) * 16 + w)%N
  | _, _, _, _ => None
  end.

(** The characters of a string literal, after its opening quote. *)
Fixpoint parse_chars (s : chars) : result (chars * chars) :=
  match s with
  | [] => Throw SyntaxError
  | c :: r =>
      if Ascii.eqb c dquote then Ok ([], r)
      else if Ascii.eqb c backslash then
        match r with
        | [] => Throw SyntaxError
        | e :: r1 =>
            match unescape e with
            | Some ch => let* '(cs, r') := parse_chars r1 in Ok (ch :: cs, r')
            | None =>
                if Ascii.eqb e "u" then
                  match r1 with
                  | h1 :: h2 :: h3 :: h4 :: r2 =>
                      match hex4 h1 h2 h3 h4 with
                      | Some n =>
                          if (n <? 256)%N
                          then let* '(cs, r') := parse_chars r2 in Ok (ascii_of_N n :: cs, r')
                          else Throw OutOfModel
                      | None => Throw SyntaxError
                      end
                  | _ => Throw SyntaxError
                  end
                else Throw SyntaxError
            end
        end
      else if (code c <? 32)%N then Throw SyntaxError
      else let* '(cs, r') := parse_chars r in Ok (c :: cs, r')
  end.

Definition starts_fraction (s : chars) : bool :=
  match s with
  | c :: _ => Ascii.eqb c "." || Ascii.eqb c "e" || Ascii.eqb c "E"
  | [] => false
  end.

(** An integer literal; a literal with a fraction or an exponent, or beyond
    the safe integers, denotes a number the embedding does not have. *)
Definition parse_number (s : chars) : result (JSValue * chars) :=
  let '(neg, s1) :=
    match s with
    | c :: r => if Ascii.eqb c "-" then (true, r) else (false, s)
    | [] => (false, s)
    end in
  match s1 with
  | [] => Throw SyntaxError
  | c :: r =>
      if is_digit c then
        let '(n, rest) := if Ascii.eqb c "0" then (0%N, r) else read_digits s1 0 in
        if starts_fraction rest then Throw OutOfModel
        else
          let z := if neg then - Z.of_N n else Z.of_N n in
          if safe_integer z then Ok (JNum z, rest) else Throw OutOfModel
      else Throw SyntaxError
  end.

(** Defining a property while parsing an object: a repeated key keeps its
    first position and takes the last value.  (JavaScript enumerates keys
    that are array indices first; the objects this code builds and stores,
    turns and passages, have none.) *)
Fixpoint obj_lookup (k : string) (m : list (string * JSValue)) : option JSValue :=
  match m with
  | [] => None
  | (k', v) :: m' => if String.eqb k k' then Some v else obj_lookup k m'
  end.

Fixpoint obj_remove (k : string) (m : list (string * JSValue)) : list (string * JSValue) :=
  match m with
  | [] => []
  | (k', v) :: m' => if String.eqb k k' then obj_remove k m' else (k', v) :: obj_remove k m'
  end.

Definition obj_cons (k : string) (v : JSValue) (later : list (string * JSValue))
  : list (string * JSValue) :=
  match obj_lookup k later with
  | Some v' => (k, v') :: obj_remove k later
  | None => (k, v) :: later
  end.

Fixpoint parse_value (fuel : nat) (s : chars) {struct fuel} : result (JSValue * chars) :=
  match fuel with
  | O => Throw OutOfFuel
  | S fuel' =>
      match skip_ws s with
      | [] => Throw SyntaxError
      | c :: r =>
          if Ascii.eqb c "n" then
            match strip_prefix (of_string "ull") r with
            | Some r' => Ok (JNull, r')
            | None => Throw SyntaxError
            end
          else if Ascii.eqb c "t" then
            match strip_prefix (of_string "rue") r with
            | Some r' => Ok (JBool true, r')
            | None => Throw SyntaxError
            end
          else if Ascii.eqb c "f" then
            match strip_prefix (of_string "alse") r with
            | Some r' => Ok (JBool false, r')
            | None => Throw SyntaxError
            end
          else if Ascii.eqb c dquote then
            let* '(cs, r') := parse_chars r in Ok (JStr (to_string cs), r')
          else if Ascii.eqb c "[" then
            match skip_ws r with
            | c' :: r' =>
                if Ascii.eqb c' "]" then Ok (JArr [], r')
                else let* '(vs, r'') := parse_elements fuel' r in Ok (JArr vs, r'')
            | [] => Throw SyntaxError
            end
          else if Ascii.eqb c "{" then
            match skip_ws r with
            | c' :: r' =>
                if Ascii.eqb c' "}" then Ok (JObj [], r')
                else let* '(ms, r'') := parse_members fuel' r in Ok (JObj ms, r'')
            | [] => Throw SyntaxError
            end
          else parse_number (c :: r)
      end
  end
with parse_elements (fuel : nat) (s : chars) {struct fuel} : result (list JSValue * chars) :=
  match fuel with
  | O => Throw OutOfFuel
  | S fuel' =>
      let* '(v, r) := parse_value fuel' s in
       match skip_ws r with
       | c :: r' =>
           if Ascii.eqb c "," then
             let* '(vs, r'') := parse_elements fuel' r' in Ok (v :: vs, r'')
           else if Ascii.eqb c "]" then Ok ([v], r')
           else Throw SyntaxError
       | [] => Throw SyntaxError
       end
  end
with parse_members (fuel : nat) (s : chars) {struct fuel}
  : result (list (string * JSValue) * chars) :=
  match fuel with
  | O => Throw OutOfFuel
  | S fuel' =>
      match skip_ws s with
      | c :: r =>
          if Ascii.eqb c dquote then
            let* '(k, r1) := parse_chars r in
             match skip_ws r1 with
             | c1 :: r2 =>
                 if Ascii.eqb c1 ":" then
                   let* '(v, r3) := parse_value fuel' r2 in
                    match skip_ws r3 with
                    | c2 :: r4 =>
                        if Ascii.eqb c2 "," then
                          let* '(ms, r5) := parse_members fuel' r4 in
                           Ok (obj_cons (to_string k) v ms, r5)
                        else if Ascii.eqb c2 "}" then Ok ([(to_string k, v)], r4)
                        else Throw SyntaxError
                    | [] => Throw SyntaxError
                    end
                 else Throw SyntaxError
             | [] => Throw SyntaxError
             end
          else Throw SyntaxError
      | [] => Throw SyntaxError
      end
  end.

Definition parse_fuel (s : chars) : nat := 2 * length s + 2.

Definition JSON_parse (text : string) : result JSValue :=
  let s := of_string text in
  let* '(v, r) := parse_value (parse_fuel s) s in
   match skip_ws r with
   | [] => Ok v
   | _ :: _ => Throw SyntaxError
   end.

(** ** The operations of JavaScript that the code uses *)

(** [v ? a : b], [!v], [v || w]. *)
Definition truthy (v : JSValue) : bool :=
  match v with
  | JUndefined | JNull => false
  | JBool b => b
  | JNum z => negb (z =? 0)
  | JStr s => negb (String.eqb s "")
  | JArr _ | JObj _ => true
  end.

Definition js_or (a b : JSValue) : JSValue := if truthy a then a else b.

Fixpoint join_with (sep : string) (parts : list string) : string :=
  match parts with
  | [] => ""
  | [p] => p
  | p :: rest => p +:+ sep +:+ join_with sep rest
  end.

Definition decimal (z : Z) : string := to_string (Z_to_decimal z).

Definition num_to_string (n : jsnum) : string :=
  match n with
  | NaN => "NaN"
  | Int z => decimal z
  end.

(** [`${v}`]: the string a template literal puts in place of [v]. *)
Fixpoint ToString (v : JSValue) : string :=
  match v with
  | JUndefined => "undefined"
  | JNull => "null"
  | JBool true => "true"
  | JBool false => "false"
  | JNum z => decimal z
  | JStr s => s
  | JArr l =>
      join_with ","
        (map (fun x => match x with JUndefined | JNull => "" | _ => ToString x end) l)
  | JObj _ => "[object Object]"
  end.

Definition own_prop (v : JSValue) (k : string) : JSValue :=
  match v with
  | JObj m => match obj_lookup k m with Some x => x | None => JUndefined end
  | _ => JUndefined
  end.

(** [v.k]: a [TypeError] on [null] and [undefined]. *)
Definition get_prop (v : JSValue) (k : string) : result JSValue :=
  match v with
  | JUndefined | JNull => Throw TypeError
  | _ => Ok (own_prop v k)
  end.

(** [v?.k] and [v?.[0]]. *)
Definition opt_prop (v : JSValue) (k : string) : JSValue := own_prop v k.

Definition opt_first (v : JSValue) : JSValue :=
  match v with
  | JArr (x :: _) => x
  | JStr (String c _) => JStr (String c EmptyString)
  | JObj _ => own_prop v "0"
  | _ => JUndefined
  end.

Fixpoint map_result {A B} (f : A -> result B) (l : list A) : result (list B) :=
  match l with
  | [] => Ok []
  | x :: l' => let* y := f x in let* ys := map_result f l' in Ok (y :: ys)
  end.

Fixpoint mapi_result {A B} (f : nat -> A -> result B) (i : nat) (l : list A)
  : result (list B) :=
  match l with
  | [] => Ok []
  | x :: l' => let* y := f i x in let* ys := mapi_result f (S i) l' in Ok (y :: ys)
  end.

(** [a.map(f)] and [a.push(x)]: a value that is not an array has neither. *)
Definition array_map (f : nat -> JSValue -> result string) (v : JSValue)
  : result (list string) :=
  match v with
  | JArr l => mapi_result f 0 l
  | _ => Throw TypeError
  end.

Definition array_map_values (f : JSValue -> result JSValue) (v : JSValue)
  : result JSValue :=
  match v with
  | JArr l => let* l' := map_result f l in Ok (JArr l')
  | _ => Throw TypeError
  end.

Definition array_push (v x : JSValue) : result JSValue :=
  match v with
  | JArr l => Ok (JArr (l ++ [x]))
  | _ => Throw TypeError
  end.

(** White space as [String.prototype.trim] and [parseInt] see it, among the
    code units below 256: TAB, LF, VT, FF, CR, SP and NBSP. *)
Definition is_js_space (c : ascii) : bool :=
  let n := code c in
  (((9 <=? n) && (n <=? 13)) || (n =? 32) || (n =? 160))%N.

Fixpoint trim_start (s : chars) : chars :=
  match s with
  | c :: r => if is_js_space c then trim_start r else s
  | [] => []
  end.

Definition trim (s : string) : string :=
  to_string (rev (trim_start (rev (trim_start (of_string s))))).

(** [parseInt(text, 10)]. *)
Definition parseInt (text : string) : jsnum :=
  let s := trim_start (of_string text) in
  let '(neg, s1) :=
    match s with
    | c :: r =>
        if Ascii.eqb c "-" then (true, r)
        else if Ascii.eqb c "+" then (false, r)
        else (false, s)
    | [] => (false, s)
    end in
  match s1 with
  | c :: _ =>
      if is_digit c
      then let n := Z.of_N (fst (read_digits s1 0)) in Int (if neg then - n else n)
      else NaN
  | [] => NaN
  end.

(** [hay.includes(needle)]. *)
Fixpoint includes (needle hay : string) : bool :=
  String.prefix needle hay ||
  match hay with
  | EmptyString => false
  | String _ hay' => includes needle hay'
  end.

(** 32-bit integers: [ToInt32], [x >>> 0], [a ^ b], [Math.imul]. *)
Definition to_int32 (z : Z) : Z :=
  let m := z mod 2 ^ 32 in if m <? 2 ^ 31 then m else m - 2 ^ 32.

Definition to_uint32 (z : Z) : Z := z mod 2 ^ 32.

Definition xor32 (a b : Z) : Z := to_int32 (Z.lxor (to_int32 a) (to_int32 b)).

Definition imul (a b : Z) : Z := to_int32 (to_int32 a * to_int32 b).

(** ** reg.js: the fingerprint *)

Definition simpleHash (s : string) : string :=
  let h :=
    fold_left (fun h c => imul (xor32 h (Z.of_N (code c))) 16777619)
      (of_string s) (to_uint32 2166136261) in
  to_string (N_to_radix 16 (Z.to_N (to_uint32 h))).

(** ** The world: store, clock and the calls made so far *)

Inductive Event : Type :=
| EvGet (key : string)
| EvSet (key value : string) (ttl : Z)
| EvKeys
| EvUuid
| EvEmbed (model input : string)
| EvSearch (collection : string) (vector : JSValue) (limit : jsnum)
| EvGenerate (prompt : string).

(** [kv] maps a key to its value and the instant at which it expires;
    [trace] lists the store commands and provider calls, latest first. *)
Record State : Type := mkState {
  kv : gmap string (string * Z);
  now : Z;
  trace : list Event
}.

Definition log (e : Event) (st : State) : State :=
  {| kv := kv st; now := now st; trace := e :: trace st |}.

(** Time passing between two operations. *)
Definition advance (seconds : Z) (st : State) : State :=
  {| kv := kv st; now := now st + seconds; trace := trace st |}.

Definition live (st : State) (key : string) : Prop :=
  exists v expiry, kv st !! key = Some (v, expiry) /\ now st < expiry.

(** The configuration read from the environment and the collaborators the
    code calls: each answers as a function of what happened before. *)
Record Env : Type := mkEnv {
  SESSION_TTL : Z;
  EMBED_MODEL : string;
  COLLECTION : string;
  uuid_v4 : list Event -> string;
  embed_post : list Event -> string -> string -> result JSValue;
  qdrant_search : list Event -> string -> JSValue -> jsnum -> result JSValue;
  generate_post : list Event -> string -> result JSValue
}.

(** An asynchronous function: it runs against the world and returns a value
    or throws; what it did before throwing stays done. *)
Definition Async (A : Type) : Type := State -> result A * State.

Definition ret {A} (a : A) : Async A := fun st => (Ok a, st).

Definition throw {A} (e : JSError) : Async A := fun st => (Throw e, st).

Definition lift {A} (r : result A) : Async A := fun st => (r, st).

Definition await {A B} (m : Async A) (k : A -> Async B) : Async B :=
  fun st =>
    match m st with
    | (Ok a, st') => k a st'
    | (Throw e, st') => (Throw e, st')
    end.

Notation "'let!' x ':=' m 'in' k" := (await m (fun x => k))
  (at level 10, x name, m at level 100, k at level 200).

(** *** The Redis client *)

Definition lookup_live (st : State) (key : string) : option string :=
  match kv st !! key with
  | Some (v, expiry) => if now st <? expiry then Some v else None
  | None => None
  end.

Definition client_get (key : string) : Async (option string) :=
  fun st => (Ok (lookup_live st key), log (EvGet key) st).

(** [client.set(key, value, { EX: ttl })]: the value must be a string, and
    Redis rejects an expiry that is not positive. *)
Definition client_set (key : string) (value : option string) (ttl : Z) : Async unit :=
  fun st =>
    match value with
    | None => (Throw TypeError, st)
    | Some v =>
        if ttl <=? 0 then (Throw RedisError, log (EvSet key v ttl) st)
        else (Ok tt, {| kv := <[key := (v, now st + ttl)]> (kv st);
                        now := now st;
                        trace := EvSet key v ttl :: trace st |})
    end.

(** [client.keys('*')]: the keys that have not expired. *)
Definition live_keys (st : State) : list string :=
  map fst (List.filter (fun e => now st <? snd (snd e)) (map_to_list (kv st))).

Definition client_keys : Async (list string) :=
  fun st => (Ok (live_keys st), log EvKeys st).

(** ** sessionManager.js *)

Section Program.
Variable E : Env.

Definition uuid : Async string :=
  fun st => (Ok (uuid_v4 E (trace st)), log EvUuid st).

(** A parameter left out takes its default. *)
Definition ttl_or (d : Z) (ttl : option Z) : Z :=
  match ttl with
  | Some t => t
  | None => d
  end.

Definition createSession (sessionId : option string) (ttl : option Z) : Async string :=
  let! id :=
    match sessionId with
    | Some s => if String.eqb s "" then uuid else ret s
    | None => uuid
    end in
  let! _ := client_set id (JSON_stringify (JArr [])) (ttl_or (SESSION_TTL E) ttl) in
  ret id.

Definition parse_stored (data : option string) : Async JSValue :=
  match data with
  | Some d => if String.eqb d "" then ret JNull else lift (JSON_parse d)
  | None => ret JNull
  end.

Definition getSession (sessionId : string) : Async JSValue :=
  let! data := client_get sessionId in
  parse_stored data.

Definition appendToSession (sessionId : string) (entry : JSValue) (ttl : option Z)
  : Async JSValue :=
  let! stored := getSession sessionId in
  let! history := lift (array_push (js_or stored (JArr [])) entry) in
  let! _ := client_set sessionId (JSON_stringify history) (ttl_or (SESSION_TTL E) ttl) in
  ret history.

Definition saveSession (sessionId : string) (history : JSValue) (ttl : option Z)
  : Async JSValue :=
  let! _ := client_set sessionId (JSON_stringify history) (ttl_or (SESSION_TTL E) ttl) in
  ret history.

Definition clearSession (sessionId : string) (ttl : option Z) : Async JSValue :=
  let! _ := client_set sessionId (JSON_stringify (JArr [])) (ttl_or (SESSION_TTL E) ttl) in
  ret (JArr []).

Definition cacheSet (key : string) (value : JSValue) (ttl : option Z) : Async unit :=
  client_set key
    (match value with
     | JStr s => Some s
     | _ => JSON_stringify value
     end)
    (ttl_or 3600 ttl).

Definition cacheGet (key : string) : Async JSValue :=
  let! v := client_get key in
  parse_stored v.

Definition kept_key (key : string) : bool :=
  negb (includes "embed:" key || includes "retrieve:" key)
  && (5 <=? String.length key)%nat.

Definition getAllKeys : Async (list string) :=
  let! keys := client_keys in
  ret (List.filter kept_key keys).

(** ** reg.js *)

Definition embed_key (text : string) : string := "embed:" +:+ simpleHash text.

Definition getEmbedding (text : string) : Async JSValue :=
  if String.eqb text "" || String.eqb (trim text) "" then ret JNull
  else
    let key := embed_key text in
    let! cached := cacheGet key in
    if truthy cached then ret cached
    else
      let! body :=
        (fun st => (embed_post E (trace st) (EMBED_MODEL E) text,
                    log (EvEmbed (EMBED_MODEL E) text) st)) in
      let embedding := opt_prop (opt_first (opt_prop body "data")) "embedding" in
      if negb (truthy embedding) then throw NoEmbedding
      else
        let! _ := cacheSet key embedding (Some (60 * 60 * 24)) in
        ret embedding.

Definition retrieve_key (query : string) (k : jsnum) : string :=
  "retrieve:" +:+ simpleHash query +:+ ":k" +:+ num_to_string k.

(** [k] is the number the caller passes; left out, it is 5. *)
Definition retrieveTopK (query : string) (k : jsnum) : Async JSValue :=
  let cacheKey := retrieve_key query k in
  let! cached := cacheGet cacheKey in
  if truthy cached then ret cached
  else
    let! emb := getEmbedding query in
    let! results :=
      (fun st => (qdrant_search E (trace st) (COLLECTION E) emb k,
                  log (EvSearch (COLLECTION E) emb k) st)) in
    let! payloads := lift (array_map_values (fun r => get_prop r "payload") results) in
    let! _ := cacheSet cacheKey payloads (Some (60 * 5)) in
    ret payloads.

Definition render_turn (i : nat) (h : JSValue) : result string :=
  let* q := get_prop h "query" in
  let* a := get_prop h "answer" in
  let n := decimal (Z.of_nat i + 1) in
  Ok ("Q" +:+ n +:+ ": " +:+ ToString q +:+ nl +:+ "A" +:+ n +:+ ": " +:+ ToString a).

Definition render_passage (i : nat) (p : JSValue) : result string :=
  let* t := get_prop p "title" in
  let* c := get_prop p "content" in
  Ok ("[Passage " +:+ decimal (Z.of_nat i + 1) +:+ "]" +:+ nl
      +:+ "Title: " +:+ ToString t +:+ nl +:+ "Content: " +:+ ToString c).

Definition INSTRUCTIONS : string :=
  "Instructions:" +:+ nl
  +:+ "1) Use only the passages above and conversation history." +:+ nl
  +:+ "2) Be concise and don't invent facts." +:+ nl
  +:+ "3) If answer is not in context, reply: " +:+ str_quote
  +:+ "Information not available in the retrieved passages." +:+ str_quote +:+ nl
  +:+ "4) If user query is a general/basic message (e.g., greetings, small talk like 'how are you'), reply politely in a conversational way."
  +:+ nl +:+ nl +:+ "Answer:".

Definition buildPromptWithHistory (history : JSValue) (query : string) (passages : JSValue)
  : result string :=
  let* turns := array_map render_turn (js_or history (JArr [])) in
  let histText := join_with nl turns in
  let* blocks := array_map render_passage passages in
  let context := join_with (nl +:+ nl) blocks in
  Ok ((if String.eqb histText "" then ""
       else "Conversation so far:" +:+ nl +:+ histText +:+ nl +:+ nl)
      +:+ "Context:" +:+ nl +:+ context +:+ nl +:+ nl
      +:+ "User: " +:+ query +:+ nl +:+ nl +:+ INSTRUCTIONS).

Definition first_text (body : JSValue) : JSValue :=
  opt_prop
    (opt_first
       (opt_prop (opt_prop (opt_first (opt_prop body "candidates")) "content") "parts"))
    "text".

(** The [catch] of [askModel] logs and throws the error again. *)
Definition askModel (prompt : string) : Async JSValue :=
  let! body :=
    (fun st => (generate_post E (trace st) prompt, log (EvGenerate prompt) st)) in
  ret (js_or (first_text body) JNull).

(** ** server.js: POST /sessions/:id/chat *)

Inductive Response : Type :=
| BadRequest                   (* 400, error "query missing" *)
| ChatOk (sessionId query : string) (answer history : JSValue)   (* 200 *)
| ChatFailed (e : JSError).    (* 500, error "chat failed" *)

Definition chat_turn (sessionId query : string) (topK : JSValue) : Async Response :=
  let! stored := getSession sessionId in
  let history := js_or stored (JArr []) in
  let k := parseInt (ToString (js_or topK (JStr "5"))) in
  let! passages := retrieveTopK query k in
  let! prompt := lift (buildPromptWithHistory history query passages) in
  let! answer := askModel prompt in
  let! newHistory :=
    appendToSession sessionId (JObj [("query", JStr query); ("answer", answer)]) None in
  ret (ChatOk sessionId query answer newHistory).

Definition post_chat (sessionId : string) (body : JSValue) : State -> Response * State :=
  fun st =>
    let fields := js_or body (JObj []) in
    let query := own_prop fields "query" in
    let topK := own_prop fields "topK" in
    match query with
    | JStr q =>
        if negb (truthy query) then (BadRequest, st)
        else
          match chat_turn sessionId q topK st with
          | (Ok r, st') => (r, st')
          | (Throw e, st') => (ChatFailed e, st')
          end
    | _ => (BadRequest, st)
    end.

End Program.

(** ** server.js: the other routes *)

Record HttpResponse : Type := mkResponse { status : Z; json : JSValue }.

Definition error_body (message : string) : JSValue := JObj [("error", JStr message)].

(** POST /sessions *)
Definition post_sessions (E : Env) : State -> HttpResponse * State :=
  fun st =>
    match createSession E None None st with
    | (Ok sessionId, st') => (mkResponse 201 (JObj [("sessionId", JStr sessionId)]), st')
    | (Throw _, st') => (mkResponse 500 (error_body "failed to create session"), st')
    end.

(** GET /sessions/:id/history *)
Definition get_history (id : string) : State -> HttpResponse * State :=
  fun st =>
    match getSession id st with
    | (Ok JNull, st') => (mkResponse 404 (error_body "session not found"), st')
    | (Ok history, st') =>
        (mkResponse 200 (JObj [("sessionId", JStr id); ("history", history)]), st')
    | (Throw _, st') => (mkResponse 500 (error_body "failed to load session"), st')
    end.

(** DELETE /sessions/:id *)
Definition delete_session (E : Env) (id : string) : State -> HttpResponse * State :=
  fun st =>
    match clearSession E id None st with
    | (Ok cleared, st') =>
        (mkResponse 200 (JObj [("sessionId", JStr id); ("history", cleared)]), st')
    | (Throw _, st') => (mkResponse 500 (error_body "failed to clear session"), st')
    end.

(** GET /getAll: the handler has no [catch]; when [getAllKeys] throws no
    response is sent. *)
Definition get_getAll : State -> option HttpResponse * State :=
  fun st =>
    match getAllKeys st with
    | (Ok allKeys, st') => (Some (mkResponse 200 (JObj [("Keys", JArr (map JStr allKeys))])), st')
    | (Throw _, st') => (None, st')
    end.

(** ** reg.js: ingestion

    The feed parser and the writes to the vector index are further
    collaborators; their calls are recorded beside the world. *)

Inductive IndexCall : Type :=
| CallParseURL (url : string)
| CallRecreate (collection : string) (size : Z)
| CallUpsert (collection : string) (points : JSValue).

Record IngestState : Type := mkIngestState {
  world : State;
  calls : list IndexCall      (* latest first *)
}.

Record Ingestion : Type := mkIngestion {
  EMBED_SIZE : Z;
  parseURL : IngestState -> string -> result JSValue;
  recreateCollection : IngestState -> string -> Z -> result unit;
  qdrant_upsert : IngestState -> string -> JSValue -> result unit
}.

Definition Ingest (A : Type) : Type := IngestState -> result A * IngestState.

Definition iret {A} (a : A) : Ingest A := fun s => (Ok a, s).

Definition ilift {A} (r : result A) : Ingest A := fun s => (r, s).

Definition iawait {A B} (m : Ingest A) (k : A -> Ingest B) : Ingest B :=
  fun s =>
    match m s with
    | (Ok a, s') => k a s'
    | (Throw e, s') => (Throw e, s')
    end.

Notation "'do!' x ':=' m 'in' k" := (iawait m (fun x => k))
  (at level 10, x name, m at level 100, k at level 200).

(** A computation on the world, run inside an ingestion. *)
Definition in_world {A} (m : Async A) : Ingest A :=
  fun s =>
    let '(r, w) := m (world s) in
    (r, {| world := w; calls := calls s |}).

Definition called (c : IndexCall) (s : IngestState) : IngestState :=
  {| world := world s; calls := c :: calls s |}.

Definition RSS_FEEDS : list string :=
  ["https://feeds.bbci.co.uk/news/world/rss.xml";
   "https://www.theguardian.com/world/rss";
   "https://rss.nytimes.com/services/xml/rss/nyt/World.xml";
   "https://www.indiatoday.in/rss/1206577.xml";
   "https://www.aljazeera.com/xml/rss/all.xml"].

(** [v.length]. *)
Definition js_length (v : JSValue) : JSValue :=
  match v with
  | JArr l => JNum (Z.of_nat (length l))
  | JStr s => JNum (Z.of_nat (String.length s))
  | _ => own_prop v "length"
  end.

(** [a.slice(0, n)]: a negative [n] counts from the end. *)
Definition slice0 {A} (l : list A) (n : Z) : list A :=
  if n <? 0 then firstn (Z.to_nat (Z.of_nat (length l) + n)) l
  else firstn (Z.to_nat n) l.

Section Ingestion.
Variable E : Env.
Variable I : Ingestion.

(** The callback of [feed.items.map]: the id is drawn first. *)
Definition article_of (it : JSValue) : Ingest JSValue :=
  do! id := in_world (uuid E) in
  do! title := ilift (get_prop it "title") in
  let contentSnippet := own_prop it "contentSnippet" in
  let content := own_prop it "content" in
  let link := own_prop it "link" in
  iret (JObj [("id", JStr id);
              ("title", js_or title (JStr "untitled"));
              ("content", js_or (js_or (js_or contentSnippet content) title) (JStr ""));
              ("link", js_or link JNull)]).

Fixpoint map_items (items : list JSValue) : Ingest (list JSValue) :=
  match items with
  | [] => iret []
  | it :: rest =>
      do! a := article_of it in
      do! others := map_items rest in
      iret (a :: others)
  end.

(** The body of the [try] for one feed: the articles so far with those of
    the feed, and whether the loop breaks. *)
Definition fetch_feed (limit : Z) (url : string) (articles : list JSValue)
  : Ingest (list JSValue * bool) :=
  do! feed := (fun s => (parseURL I s url, called (CallParseURL url) s)) in
  do! items := ilift (get_prop feed "items") in
  if truthy items && truthy (js_length items) then
    match items with
    | JArr l =>
        do! mapped := map_items l in
        let articles' := articles ++ mapped in
        iret (articles', Z.of_nat (length articles') >=? limit)
    | _ => ilift (Throw TypeError)
    end
  else iret (articles, false).

(** The loop over the feeds: a feed that throws is logged and skipped. *)
Fixpoint fetch_loop (limit : Z) (feeds : list string) (articles : list JSValue)
  : Ingest (list JSValue) :=
  match feeds with
  | [] => iret articles
  | url :: rest =>
      fun s =>
        match fetch_feed limit url articles s with
        | (Ok (articles', true), s') => (Ok articles', s')
        | (Ok (articles', false), s') => fetch_loop limit rest articles' s'
        | (Throw _, s') => fetch_loop limit rest articles s'
        end
  end.

Definition fetchArticles (limit : option Z) : Ingest (list JSValue) :=
  let limit := ttl_or 100 limit in
  do! articles := fetch_loop limit RSS_FEEDS [] in
  iret (slice0 articles limit).

(** [getEmbedding] as [ingestToQdrant] calls it, on whatever [a.content] is:
    a truthy value that is not a string has no [trim]. *)
Definition getEmbedding_of (text : JSValue) : Async JSValue :=
  match text with
  | JStr s => getEmbedding E s
  | _ => if truthy text then throw TypeError else ret JNull
  end.

Definition initCollection : Ingest unit :=
  fun s =>
    match recreateCollection I s (COLLECTION E) (EMBED_SIZE I) with
    | Ok _ | Throw _ => (Ok tt, called (CallRecreate (COLLECTION E) (EMBED_SIZE I)) s)
    end.

Fixpoint embed_articles (articles : list JSValue) (points : list JSValue)
  : Ingest (list JSValue) :=
  match articles with
  | [] => iret points
  | a :: rest =>
      do! content := ilift (get_prop a "content") in
      do! emb := in_world (getEmbedding_of content) in
      embed_articles rest
        (points ++
         [JObj [("id", own_prop a "id"); ("vector", emb);
                ("payload", JObj [("title", own_prop a "title");
                                  ("content", content);
                                  ("link", own_prop a "link")])]])
  end.

Definition ingestToQdrant (articles : list JSValue) : Ingest unit :=
  do! points := embed_articles articles [] in
  fun s =>
    let body := JObj [("points", JArr points)] in
    (qdrant_upsert I s (COLLECTION E) body, called (CallUpsert (COLLECTION E) body) s).

(** POST /ingest *)
Definition post_ingest : IngestState -> HttpResponse * IngestState :=
  fun s =>
    match
      (do! articles := fetchArticles None in
       do! _ := initCollection in
       do! _ := ingestToQdrant articles in
       iret (mkResponse 200 (JObj [("status", JStr "ok");
                                   ("ingested", JNum (Z.of_nat (length articles)))]))) s
    with
    | (Ok r, s') => (r, s')
    | (Throw _, s') => (mkResponse 500 (error_body "failed to ingest"), s')
    end.

End Ingestion.
(** * Properties of the JSON model *)

Section JSValue_induction.
Variable P : JSValue -> Prop.
Hypothesis Hundef : P JUndefined.
Hypothesis Hnull : P JNull.
Hypothesis Hbool : forall b, P (JBool b).
Hypothesis Hnum : forall z, P (JNum z).
Hypothesis Hstr : forall s, P (JStr s).
Hypothesis Harr : forall l, Forall P l -> P (JArr l).
Hypothesis Hobj : forall m, Forall (fun kv => P (snd kv)) m -> P (JObj m).

Fixpoint JSValue_ind (v : JSValue) : P v :=
  match v with
  | JUndefined => Hundef
  | JNull => Hnull
  | JBool b => Hbool b
  | JNum z => Hnum z
  | JStr s => Hstr s
  | JArr l =>
      Harr l ((fix all (l : list JSValue) : Forall P l :=
                 match l with
                 | [] => List.Forall_nil _
                 | x :: l' => List.Forall_cons _ _ _ (JSValue_ind x) (all l')
                 end) l)
  | JObj m =>
      Hobj m ((fix all (m : list (string * JSValue)) : Forall (fun kv => P (snd kv)) m :=
                 match m with
                 | [] => List.Forall_nil _
                 | kv :: m' => List.Forall_cons _ _ _ (JSValue_ind (snd kv)) (all m')
                 end) m)
  end.
End JSValue_induction.

(** ** Digits *)

Definition digits_step (a : N) (c : ascii) : N := (a * 10 + digit_val c)%N.

Definition digits_value (ds : chars) : N := fold_left digits_step ds 0%N.

Lemma radix_digits_acc base fuel : forall n acc,
  radix_digits base fuel n acc = radix_digits base fuel n [] ++ acc.
Proof.
  induction fuel as [|fuel IH]; intros n acc; simpl; [reflexivity|].
  destruct (n / base =? 0)%N; [reflexivity|].
  rewrite (IH _ (_ :: acc)), (IH _ [_]), <- app_assoc. reflexivity.
Qed.

Lemma radix_digits_S base fuel n acc :
  radix_digits base (S fuel) n acc =
  if (n / base =? 0)%N then digit_char (n mod base) :: acc
  else radix_digits base fuel (n / base) (digit_char (n mod base) :: acc).
Proof. reflexivity. Qed.

Lemma digit_char_decimal d :
  (d < 10)%N -> is_digit (digit_char d) = true /\ digit_val (digit_char d) = d.
Proof.
  intros Hd. unfold is_digit, digit_val, code, digit_char.
  destruct (N.ltb_spec d 10) as [_|]; [|lia].
  rewrite N_ascii_embedding by lia. split; [|lia].
  apply andb_true_intro; split; apply N.leb_le; lia.
Qed.

Lemma digit_char_zero d : (d < 10)%N -> digit_char d = "0"%char -> d = 0%N.
Proof.
  intros Hd E. destruct (digit_char_decimal d Hd) as [_ Hv].
  rewrite E in Hv. vm_compute in Hv. congruence.
Qed.

Lemma read_digits_all ds : forall rest acc,
  Forall (fun c => is_digit c = true) ds ->
  match rest with [] => True | c :: _ => is_digit c = false end ->
  read_digits (ds ++ rest) acc = (fold_left digits_step ds acc, rest).
Proof.
  induction ds as [|d ds IH]; intros rest acc Hds Hrest; simpl.
  - destruct rest as [|c r]; [reflexivity|]. simpl. rewrite Hrest. reflexivity.
  - inversion Hds as [|? ? Hd Hds']; subst. rewrite Hd. apply IH; assumption.
Qed.

(** What the digits of [n] in base ten look like: decimal digits only, no
    leading zero unless [n] is zero, and they denote [n]. *)
Definition decimal_of (n : N) (ds : chars) : Prop :=
  Forall (fun c => is_digit c = true) ds /\
  digits_value ds = n /\
  match ds with
  | [] => False
  | c :: r => c = "0"%char -> n = 0%N /\ r = []
  end.

Lemma radix_digits_decimal fuel : forall n,
  (n < 2 ^ N.of_nat fuel)%N -> decimal_of n (radix_digits 10 (S fuel) n []).
Proof.
  induction fuel as [|fuel IH]; intros n Hn.
  - assert (n = 0%N) as -> by (simpl in Hn; lia).
    split; [repeat constructor | split; [reflexivity | intros _; split; reflexivity]].
  - rewrite radix_digits_S.
    assert (Hmod : (n mod 10 < 10)%N) by (apply N.mod_lt; lia).
    destruct (digit_char_decimal _ Hmod) as [Hdig Hval].
    destruct (N.eqb_spec (n / 10) 0) as [Hq|Hq].
    + assert (Hsmall : (n mod 10 = n)%N).
      { pose proof (N.div_mod n 10). lia. }
      repeat split.
      * constructor; [assumption | constructor].
      * unfold digits_value; simpl. unfold digits_step. rewrite Hval. lia.
      * apply digit_char_zero in H; [lia | assumption].
    + rewrite radix_digits_acc.
      assert (Hlt : (n / 10 < 2 ^ N.of_nat fuel)%N).
      { rewrite Nat2N.inj_succ, N.pow_succ_r' in Hn.
        apply N.Div0.div_lt_upper_bound. lia. }
      destruct (IH _ Hlt) as (Hall & Hv & Hhead).
      remember (radix_digits 10 (S fuel) (n / 10) []) as ds eqn:Eds. clear Eds IH.
      repeat split.
      * apply Forall_app; split; [assumption | constructor; [assumption | constructor]].
      * unfold digits_value in *. rewrite fold_left_app. simpl.
        rewrite Hv. unfold digits_step. rewrite Hval.
        pose proof (N.div_mod n 10). lia.
      * destruct ds as [|c r]; [contradiction|].
        simpl. intros Hc. destruct (Hhead Hc) as [Hz _]. contradiction.
Qed.

Lemma N_to_decimal_spec n : decimal_of n (N_to_decimal n).
Proof.
  unfold N_to_decimal, N_to_radix. apply radix_digits_decimal.
  rewrite N2Nat.id. apply N.size_gt.
Qed.

Lemma N_to_decimal_inj n m : N_to_decimal n = N_to_decimal m -> n = m.
Proof.
  intros E. destruct (N_to_decimal_spec n) as (_ & Hn & _).
  destruct (N_to_decimal_spec m) as (_ & Hm & _).
  rewrite E in Hn. congruence.
Qed.

Lemma is_digit_not_minus c : is_digit c = true -> Ascii.eqb c "-" = false.
Proof.
  destruct c as [[] [] [] [] [] [] [] []]; intros H; try reflexivity; discriminate H.
Qed.

Lemma Z_to_decimal_inj z1 z2 : Z_to_decimal z1 = Z_to_decimal z2 -> z1 = z2.
Proof.
  unfold Z_to_decimal. intros E.
  assert (Hhead : forall n r, N_to_decimal n = "-"%char :: r -> False).
  { intros n r En. destruct (N_to_decimal_spec n) as (Hall & _ & _).
    rewrite En in Hall. inversion Hall as [|? ? Hd _]. discriminate Hd. }
  destruct (Z.ltb_spec z1 0), (Z.ltb_spec z2 0).
  - injection E as E. apply N_to_decimal_inj in E. lia.
  - symmetry in E. apply Hhead in E. contradiction.
  - apply Hhead in E. contradiction.
  - apply N_to_decimal_inj in E. lia.
Qed.

(** ** String literals *)

Lemma parse_chars_escape c s :
  parse_chars (escape_char c ++ s) =
  let* '(cs, r) := parse_chars s in Ok (c :: cs, r).
Proof. destruct c as [[] [] [] [] [] [] [] []]; reflexivity. Qed.

Lemma parse_chars_quoted cs rest :
  parse_chars (flat_map escape_char cs ++ dquote :: rest) = Ok (cs, rest).
Proof.
  induction cs as [|c cs IH].
  - reflexivity.
  - cbn [flat_map]. rewrite <- app_assoc, parse_chars_escape, IH. reflexivity.
Qed.

Lemma to_of_string s : to_string (of_string s) = s.
Proof. apply string_of_list_ascii_of_string. Qed.

Lemma of_to_string cs : of_string (to_string cs) = cs.
Proof. apply list_ascii_of_string_of_list_ascii. Qed.

(** ** Values that JSON can carry

    No [undefined] anywhere, integers within the safe range, and the keys of
    an object pairwise distinct. *)

Fixpoint distinct (ks : list string) : bool :=
  match ks with
  | [] => true
  | k :: r => negb (existsb (String.eqb k) r) && distinct r
  end.

Fixpoint json_safe (v : JSValue) : bool :=
  match v with
  | JUndefined => false
  | JNull | JBool _ | JStr _ => true
  | JNum z => safe_integer z
  | JArr l => forallb json_safe l
  | JObj m => distinct (map fst m) && forallb (fun kv => json_safe (snd kv)) m
  end.

Fixpoint vsize (v : JSValue) : nat :=
  match v with
  | JArr l => S (list_sum (map (fun x => S (vsize x)) l))
  | JObj m => S (list_sum (map (fun kv => S (vsize (snd kv))) m))
  | _ => O
  end.

Definition esize (l : list JSValue) : nat := list_sum (map (fun x => S (vsize x)) l).
Definition msize (m : list (string * JSValue)) : nat :=
  list_sum (map (fun kv => S (vsize (snd kv))) m).

(** What may follow a value inside a text. *)
Definition delim (rest : chars) : Prop :=
  match rest with
  | [] => True
  | c :: _ => c = ","%char \/ c = "]"%char \/ c = "}"%char
  end.

Definition value_start (c : ascii) : bool :=
  is_digit c || Ascii.eqb c "-" || Ascii.eqb c "n" || Ascii.eqb c "t" || Ascii.eqb c "f"
  || Ascii.eqb c dquote || Ascii.eqb c "[" || Ascii.eqb c "{".

(** ** Numbers *)

Lemma delim_not_digit rest :
  delim rest -> match rest with [] => True | c :: _ => is_digit c = false end.
Proof. destruct rest as [|c r]; simpl; [trivial|]. intros [-> | [-> | ->]]; reflexivity. Qed.

Lemma delim_not_fraction rest : delim rest -> starts_fraction rest = false.
Proof. destruct rest as [|c r]; simpl; [trivial|]. intros [-> | [-> | ->]]; reflexivity. Qed.

Lemma parse_unsigned n rest :
  delim rest ->
  exists c r, N_to_decimal n ++ rest = c :: r /\ is_digit c = true /\
    (if Ascii.eqb c "0" then (0%N, r) else read_digits (c :: r) 0) = (n, rest).
Proof.
  intros Hrest. destruct (N_to_decimal_spec n) as (Hall & Hv & Hhead).
  destruct (N_to_decimal n) as [|c ds] eqn:E; [contradiction|].
  exists c, (ds ++ rest). split; [reflexivity|].
  split; [inversion Hall; assumption|].
  destruct (Ascii.eqb_spec c "0") as [Hc|Hc].
  - destruct (Hhead Hc) as [-> ->]. reflexivity.
  - change (c :: ds ++ rest) with ((c :: ds) ++ rest).
    rewrite read_digits_all; [| assumption | apply delim_not_digit; assumption].
    unfold digits_value in Hv. rewrite Hv. reflexivity.
Qed.

Lemma parse_number_ser z rest :
  safe_integer z = true -> delim rest ->
  parse_number (Z_to_decimal z ++ rest) = Ok (JNum z, rest).
Proof.
  intros Hsafe Hrest. unfold Z_to_decimal.
  destruct (Z.ltb_spec z 0) as [Hneg|Hpos].
  - destruct (parse_unsigned (Z.to_N (- z)) rest Hrest) as (c & r & E & Hc & Hread).
    unfold parse_number. cbn [app]. rewrite E.
    change (Ascii.eqb "-" "-") with true. cbv iota. rewrite Hc, Hread.
    rewrite (delim_not_fraction _ Hrest).
    replace (- Z.of_N (Z.to_N (- z))) with z by lia.
    rewrite Hsafe. reflexivity.
  - destruct (parse_unsigned (Z.to_N z) rest Hrest) as (c & r & E & Hc & Hread).
    unfold parse_number. rewrite E, (is_digit_not_minus _ Hc). cbv iota.
    rewrite Hc, Hread, (delim_not_fraction _ Hrest).
    replace (Z.of_N (Z.to_N z)) with z by lia.
    rewrite Hsafe. reflexivity.
Qed.

(** ** Dispatch on the first character *)

Lemma value_start_facts c :
  value_start c = true ->
  is_ws c = false /\ Ascii.eqb c "]" = false /\ Ascii.eqb c "}" = false.
Proof.
  destruct c as [[] [] [] [] [] [] [] []]; intros H; try discriminate H;
    repeat split; reflexivity.
Qed.

Lemma skip_ws_start c r : value_start c = true -> skip_ws (c :: r) = c :: r.
Proof. intros H. simpl. destruct (value_start_facts c H) as (-> & _). reflexivity. Qed.

Lemma parse_value_number fuel c r :
  (is_digit c || Ascii.eqb c "-") = true ->
  parse_value (S fuel) (c :: r) = parse_number (c :: r).
Proof.
  destruct c as [[] [] [] [] [] [] [] []]; intros H; try discriminate H; reflexivity.
Qed.

Lemma parse_value_string fuel r :
  parse_value (S fuel) (dquote :: r) =
  let* '(cs, r') := parse_chars r in Ok (JStr (to_string cs), r').
Proof. reflexivity. Qed.

Lemma parse_value_array fuel c r :
  value_start c = true ->
  parse_value (S fuel) ("["%char :: c :: r) =
  let* '(vs, r') := parse_elements fuel (c :: r) in Ok (JArr vs, r').
Proof.
  intros H. destruct (value_start_facts c H) as (Hws & Hb & _).
  cbn [parse_value skip_ws is_ws Ascii.eqb orb]. cbn -[parse_elements].
  rewrite Hws, Hb. reflexivity.
Qed.

Lemma parse_value_object fuel r :
  parse_value (S fuel) ("{"%char :: dquote :: r) =
  let* '(ms, r') := parse_members fuel (dquote :: r) in Ok (JObj ms, r').
Proof. reflexivity. Qed.

Lemma ser_start v :
  json_safe v = true -> exists c r, ser v = c :: r /\ value_start c = true.
Proof.
  destruct v as [| |[]|z|s|l|m]; simpl; intros H; try discriminate H;
    try (eexists _, _; split; [reflexivity | reflexivity]).
  unfold Z_to_decimal. destruct (z <? 0).
  - eexists _, _; split; reflexivity.
  - destruct (N_to_decimal_spec (Z.to_N z)) as (Hall & _ & Hhead).
    destruct (N_to_decimal (Z.to_N z)) as [|c ds]; [contradiction|].
    exists c, ds. split; [reflexivity|]. inversion Hall as [|? ? Hc _].
    unfold value_start. rewrite Hc. reflexivity.
Qed.

(** ** Printing then parsing *)

Definition reparses (v : JSValue) : Prop :=
  json_safe v = true ->
  forall fuel rest, delim rest -> (vsize v < fuel)%nat ->
    parse_value fuel (ser v ++ rest) = Ok (v, rest).

Lemma parse_elements_ser l :
  Forall reparses l -> forallb json_safe l = true -> l <> [] ->
  forall fuel rest, (esize l < fuel)%nat ->
    parse_elements fuel (join_comma (map ser l) ++ "]"%char :: rest) = Ok (l, rest).
Proof.
  induction l as [|v l IH]; intros Hall Hsafe Hne fuel rest Hfuel; [congruence|].
  inversion Hall as [|? ? Hv Hl]; subst.
  cbn [forallb] in Hsafe. apply andb_prop in Hsafe as [Hsv Hsl].
  unfold esize in Hfuel. cbn [map list_sum fold_right] in Hfuel.
  destruct fuel as [|fuel]; [lia|].
  cbn [parse_elements].
  destruct l as [|v' l'].
  - cbn [map join_comma].
    rewrite (Hv Hsv fuel ("]"%char :: rest)); [reflexivity | simpl; auto | lia].
  - change (join_comma (map ser (v :: v' :: l')))
      with (ser v ++ ","%char :: join_comma (map ser (v' :: l'))).
    rewrite <- app_assoc. cbn [app].
    rewrite (Hv Hsv fuel); [| simpl; auto | lia].
    cbn [rbind skip_ws is_ws Ascii.eqb orb]. cbn -[parse_elements join_comma map].
    rewrite IH; [reflexivity | assumption | assumption | congruence |].
    unfold esize, list_sum. lia.
Qed.

Definition member_text (kv : string * JSValue) : chars :=
  quote (of_string (fst kv)) ++ ":"%char :: ser (snd kv).

Lemma ser_object m :
  forallb (fun kv => json_safe (snd kv)) m = true ->
  ser (JObj m) = "{"%char :: join_comma (map member_text m) ++ ["}"%char].
Proof.
  intros Hsafe. cbn [ser]. do 3 f_equal.
  induction m as [|[k v] m IH]; [reflexivity|].
  cbn [forallb snd] in Hsafe. apply andb_prop in Hsafe as [Hv Hm].
  cbn [map]. rewrite <- (IH Hm).
  destruct v; try reflexivity. discriminate Hv.
Qed.

Lemma parse_members_step fuel kv tail :
  parse_members (S fuel) (member_text kv ++ tail) =
  let* '(v, r3) := parse_value fuel (ser (snd kv) ++ tail) in
  match skip_ws r3 with
  | c2 :: r4 =>
      if Ascii.eqb c2 "," then
        let* '(ms, r5) := parse_members fuel r4 in Ok (obj_cons (fst kv) v ms, r5)
      else if Ascii.eqb c2 "}" then Ok ([(fst kv, v)], r4)
      else Throw SyntaxError
  | [] => Throw SyntaxError
  end.
Proof.
  unfold member_text, quote. cbn [app]. rewrite <- !app_assoc. cbn [app].
  change (parse_members (S fuel) (dquote :: ?r)) with
    (let* '(k, r1) := parse_chars r in
     match skip_ws r1 with
     | c1 :: r2 =>
         if Ascii.eqb c1 ":" then
           let* '(v, r3) := parse_value fuel r2 in
           match skip_ws r3 with
           | c2 :: r4 =>
               if Ascii.eqb c2 "," then
                 let* '(ms, r5) := parse_members fuel r4 in
                 Ok (obj_cons (to_string k) v ms, r5)
               else if Ascii.eqb c2 "}" then Ok ([(to_string k, v)], r4)
               else Throw SyntaxError
           | [] => Throw SyntaxError
           end
         else Throw SyntaxError
     | [] => Throw SyntaxError
     end).
  rewrite parse_chars_quoted. cbn [rbind]. rewrite to_of_string. reflexivity.
Qed.

Lemma obj_lookup_fresh k m :
  existsb (String.eqb k) (map fst m) = false -> obj_lookup k m = None.
Proof.
  induction m as [|[k' v] m IH]; [reflexivity|]. cbn [map fst existsb obj_lookup].
  intros H. apply orb_false_elim in H as [-> H]. auto.
Qed.

Lemma parse_members_ser m :
  Forall (fun kv => reparses (snd kv)) m ->
  forallb (fun kv => json_safe (snd kv)) m = true ->
  distinct (map fst m) = true -> m <> [] ->
  forall fuel rest, (msize m < fuel)%nat ->
    parse_members fuel (join_comma (map member_text m) ++ "}"%char :: rest) = Ok (m, rest).
Proof.
  induction m as [|[k v] m IH]; intros Hall Hsafe Hkeys Hne fuel rest Hfuel; [congruence|].
  inversion Hall as [|? ? Hv Hm]; subst. cbn [snd] in Hv.
  cbn [forallb snd] in Hsafe. apply andb_prop in Hsafe as [Hsv Hsm].
  cbn [map fst distinct] in Hkeys. apply andb_prop in Hkeys as [Hk Hks].
  apply negb_true_iff in Hk.
  unfold msize, list_sum in Hfuel. cbn [map fold_right snd] in Hfuel.
  destruct fuel as [|fuel]; [lia|].
  destruct m as [|kv' m'].
  - cbn [map join_comma]. rewrite parse_members_step. cbn [fst snd].
    rewrite (Hv Hsv fuel ("}"%char :: rest)); [reflexivity | simpl; auto | lia].
  - change (join_comma (map member_text ((k, v) :: kv' :: m')))
      with (member_text (k, v) ++ ","%char :: join_comma (map member_text (kv' :: m'))).
    rewrite <- app_assoc. cbn [app]. rewrite parse_members_step. cbn [fst snd].
    rewrite (Hv Hsv fuel); [| simpl; auto | lia].
    cbn [rbind skip_ws is_ws Ascii.eqb orb]. cbn -[parse_members join_comma map].
    rewrite IH; [| assumption | assumption | assumption | congruence |].
    + cbn [rbind]. unfold obj_cons. rewrite (obj_lookup_fresh _ _ Hk). reflexivity.
    + unfold msize, list_sum. lia.
Qed.

Lemma reparses_all v : reparses v.
Proof.
  induction v as [| |b|z|s|l IH|m IH] using JSValue_ind;
    intros Hsafe fuel rest Hrest Hfuel;
    (destruct fuel as [|fuel]; [lia|]).
  - discriminate Hsafe.
  - reflexivity.
  - destruct b; reflexivity.
  - cbn [ser]. destruct (ser_start (JNum z) Hsafe) as (c & r & E & Hc).
    cbn [ser] in E. rewrite E. cbn [app].
    rewrite <- (parse_number_ser z rest Hsafe Hrest), E. cbn [app].
    apply parse_value_number.
    unfold Z_to_decimal in E. destruct (z <? 0).
    + injection E as <- _. reflexivity.
    + destruct (N_to_decimal_spec (Z.to_N z)) as (Hall & _ & _).
      rewrite E in Hall. inversion Hall as [|? ? Hd _]. rewrite Hd. reflexivity.
  - cbn [ser]. unfold quote. cbn [app]. rewrite <- app_assoc. cbn [app].
    rewrite parse_value_string, parse_chars_quoted. cbn [rbind].
    rewrite to_of_string. reflexivity.
  - cbn [json_safe] in Hsafe. cbn [vsize] in Hfuel.
    destruct l as [|v l]; [reflexivity|].
    cbn [ser app]. rewrite <- app_assoc. cbn [app].
    assert (Hv : json_safe v = true) by (cbn [forallb] in Hsafe; apply andb_prop in Hsafe as [? _]; assumption).
    destruct (ser_start v Hv) as (c & r & E & Hc).
    assert (Hj : exists r', join_comma (map ser (v :: l)) = c :: r').
    { destruct l; cbn [map join_comma]; rewrite E; eexists; reflexivity. }
    destruct Hj as [r' Hj].
    pose proof (parse_elements_ser (v :: l) IH Hsafe ltac:(congruence) fuel rest) as Hp.
    rewrite Hj in *. cbn [app] in *.
    rewrite (parse_value_array _ _ _ Hc), Hp; [reflexivity|].
    unfold esize. lia.
  - cbn [json_safe] in Hsafe. apply andb_prop in Hsafe as [Hkeys Hsafe].
    cbn [vsize] in Hfuel.
    rewrite (ser_object _ Hsafe).
    destruct m as [|kv m]; [reflexivity|].
    rewrite <- app_comm_cons, <- app_assoc. cbn [app].
    pose proof (parse_members_ser (kv :: m) IH Hsafe Hkeys ltac:(congruence) fuel rest) as Hp.
    assert (Hj : exists r', join_comma (map member_text (kv :: m)) = dquote :: r').
    { destruct m; cbn [map join_comma]; unfold member_text, quote; eexists; reflexivity. }
    destruct Hj as [r' Hj]. rewrite Hj in *. cbn [app] in *.
    rewrite parse_value_object, Hp; [reflexivity|].
    unfold msize. lia.
Qed.

(** The fuel that [JSON_parse] grants is enough for every printed value. *)

Lemma join_comma_length parts :
  (list_sum (map (fun p => S (length p)) parts) <= S (length (join_comma parts)))%nat.
Proof.
  induction parts as [|p [|q parts] IH].
  - simpl. lia.
  - simpl. lia.
  - change (join_comma (p :: q :: parts)) with (p ++ ","%char :: join_comma (q :: parts)).
    rewrite length_app. cbn [length].
    cbn [map list_sum fold_right] in *. lia.
Qed.

Lemma list_sum_le {A} (f g : A -> nat) l :
  Forall (fun x => f x <= g x)%nat l -> (list_sum (map f l) <= list_sum (map g l))%nat.
Proof.
  induction 1; cbn [map list_sum fold_right]; [lia|].
  unfold list_sum in *. lia.
Qed.

Lemma vsize_bound v : json_safe v = true -> (vsize v <= 2 * length (ser v))%nat.
Proof.
  induction v as [| |b|z|s|l IH|m IH] using JSValue_ind; intros Hsafe;
    try (cbn [vsize]; lia).
  - cbn [json_safe] in Hsafe. cbn [vsize ser].
    cbn [length]. rewrite length_app. cbn [length].
    pose proof (join_comma_length (map ser l)) as Hj. rewrite map_map in Hj.
    assert (Hle : (list_sum (map (fun x => S (vsize x)) l)
                   <= 2 * list_sum (map (fun x => S (length (ser x))) l))%nat).
    { clear Hj. induction IH as [|x l Hx _ IHl]; cbn [map list_sum fold_right]; [lia|].
      cbn [forallb] in Hsafe. apply andb_prop in Hsafe as [Hsx Hsl].
      specialize (Hx Hsx). specialize (IHl Hsl). unfold list_sum in *. lia. }
    lia.
  - cbn [json_safe] in Hsafe. apply andb_prop in Hsafe as [_ Hsafe].
    rewrite (ser_object _ Hsafe). cbn [vsize].
    cbn [length]. rewrite length_app. cbn [length].
    pose proof (join_comma_length (map member_text m)) as Hj. rewrite map_map in Hj.
    assert (Hle : (list_sum (map (fun kv => S (vsize (snd kv))) m)
                   <= 2 * list_sum (map (fun kv => S (length (member_text kv))) m))%nat).
    { clear Hj. induction IH as [|x l Hx _ IHl]; cbn [map list_sum fold_right]; [lia|].
      cbn [forallb] in Hsafe. apply andb_prop in Hsafe as [Hsx Hsl].
      specialize (Hx Hsx). specialize (IHl Hsl).
      assert (length (ser (snd x)) <= length (member_text x))%nat.
      { unfold member_text. rewrite length_app. cbn [length]. lia. }
      unfold list_sum in *. lia. }
    lia.
Qed.

Lemma JSON_parse_ser v : json_safe v = true -> JSON_parse (to_string (ser v)) = Ok v.
Proof.
  intros Hsafe. unfold JSON_parse. cbv zeta. rewrite of_to_string.
  pose proof (reparses_all v Hsafe (parse_fuel (ser v)) [] I) as Hp.
  rewrite app_nil_r in Hp. rewrite Hp; [reflexivity|].
  pose proof (vsize_bound v Hsafe). unfold parse_fuel. lia.
Qed.

(** ** The fuel of [JSON_parse] never runs out

    Every value consumes at least one character, so the fuel that
    [JSON_parse] grants, twice the length of the text and two, is never
    exhausted: the parse of any text returns a value or throws an error of
    JavaScript. *)

Ltac break_in H :=
  match type of H with
  | context [match ?x with _ => _ end] => destruct x eqn:?
  end.

Lemma skip_ws_length s : (length (skip_ws s) <= length s)%nat.
Proof.
  induction s as [|c s IH]; simpl; [lia|]. destruct (is_ws c); simpl; lia.
Qed.

Lemma strip_prefix_length p : forall s r,
  strip_prefix p s = Some r -> (length r <= length s)%nat.
Proof.
  induction p as [|a p IH]; intros s r H; simpl in H.
  - injection H as <-. lia.
  - destruct s as [|b s]; [discriminate|].
    destruct (Ascii.eqb a b); [|discriminate]. apply IH in H. simpl. lia.
Qed.

Lemma read_digits_length s : forall acc, (length (snd (read_digits s acc)) <= length s)%nat.
Proof.
  induction s as [|c s IH]; intros acc; simpl; [lia|].
  destruct (is_digit c); simpl; [specialize (IH (acc * 10 + digit_val c)%N)|]; lia.
Qed.

Lemma parse_chars_length n : forall s cs r,
  (length s <= n)%nat -> parse_chars s = Ok (cs, r) -> (length r < length s)%nat.
Proof.
  induction n as [|n IH]; intros s cs r Hn H.
  - destruct s; [discriminate H | simpl in Hn; lia].
  - destruct s as [|c s]; [discriminate H|]. cbn [parse_chars] in H. simpl in Hn.
    unfold rbind in H.
    repeat (break_in H; try discriminate H);
      repeat match goal with
             | Hp : parse_chars ?x = Ok _ |- _ => apply IH in Hp; [|simpl in *; lia]
             end;
      injection H as <- <-; subst; simpl in *; lia.
Qed.

Lemma read_digits_progress c s acc :
  is_digit c = true -> (length (snd (read_digits (c :: s) acc)) <= length s)%nat.
Proof. intros Hc. cbn [read_digits]. rewrite Hc. apply read_digits_length. Qed.

Lemma parse_number_length s v r :
  parse_number s = Ok (v, r) -> (length r < length s)%nat.
Proof.
  unfold parse_number. intros H.
  assert (Hsign : exists neg s1,
    match s with
    | c :: r => if Ascii.eqb c "-" then (true, r) else (false, s)
    | [] => (false, s)
    end = (neg, s1) /\ (length s1 <= length s)%nat).
  { destruct s as [|c s']; [eexists _, _; split; [reflexivity | lia]|].
    destruct (Ascii.eqb c "-"); eexists _, _; (split; [reflexivity | simpl; lia]). }
  destruct Hsign as (neg & s1 & Hs & Hlen). rewrite Hs in H.
  destruct s1 as [|c r0]; [discriminate H|].
  destruct (is_digit c) eqn:Hd; [|discriminate H].
  assert (Hdigits : exists n rest,
    (if Ascii.eqb c "0" then (0%N, r0) else read_digits (c :: r0) 0) = (n, rest)
    /\ (length rest <= length r0)%nat).
  { destruct (Ascii.eqb c "0"); [eexists _, _; split; [reflexivity | lia]|].
    pose proof (read_digits_progress c r0 0 Hd) as Hp.
    destruct (read_digits (c :: r0) 0) as [n rest]. exists n, rest. split; [reflexivity | exact Hp]. }
  destruct Hdigits as (n & rest & Hr & Hlen'). rewrite Hr in H.
  destruct (starts_fraction rest); [discriminate H|].
  destruct (safe_integer _); [|discriminate H].
  injection H as _ <-. simpl in Hlen. lia.
Qed.

Ltac lengths IHv IHe IHm :=
  repeat match goal with
         | Hq : skip_ws ?x = ?y |- _ =>
             assert (length y <= length x)%nat by (rewrite <- Hq; apply skip_ws_length);
             clear Hq
         | Hq : strip_prefix _ _ = Some _ |- _ => apply strip_prefix_length in Hq
         | Hq : parse_chars ?x = Ok _ |- _ =>
             apply (parse_chars_length (length x)) in Hq; [|lia]
         | Hq : parse_number _ = Ok _ |- _ => apply parse_number_length in Hq
         | Hq : parse_value _ _ = Ok _ |- _ => apply IHv in Hq
         | Hq : parse_elements _ _ = Ok _ |- _ => apply IHe in Hq
         | Hq : parse_members _ _ = Ok _ |- _ => apply IHm in Hq
         end.

Lemma parse_progress fuel :
  (forall s v r, parse_value fuel s = Ok (v, r) -> (length r < length s)%nat)
  /\ (forall s vs r, parse_elements fuel s = Ok (vs, r) -> (length r < length s)%nat)
  /\ (forall s ms r, parse_members fuel s = Ok (ms, r) -> (length r < length s)%nat).
Proof.
  induction fuel as [|fuel (IHv & IHe & IHm)]; [repeat split; intros; discriminate|].
  split; [|split]; intros s x r H;
    cbn [parse_value parse_elements parse_members] in H; unfold rbind in H;
    repeat (break_in H; try discriminate H);
    lengths IHv IHe IHm;
    try (injection H as <- <-); simpl in *; lia.
Qed.

Lemma parse_chars_no_fuel n : forall s,
  (length s <= n)%nat -> parse_chars s <> Throw OutOfFuel.
Proof.
  induction n as [|n IH]; intros s Hn H.
  - destruct s; [discriminate H | simpl in Hn; lia].
  - destruct s as [|c s]; [discriminate H|]. cbn [parse_chars] in H. simpl in Hn.
    unfold rbind in H.
    repeat (break_in H; try discriminate H);
      injection H as ->;
      match goal with
      | Hp : parse_chars ?x = Throw OutOfFuel |- _ => apply IH in Hp; [exact Hp|]
      end; subst; simpl in *; lia.
Qed.

Lemma parse_number_no_fuel s : parse_number s <> Throw OutOfFuel.
Proof.
  unfold parse_number. intros H. repeat (break_in H; try discriminate H).
Qed.

Lemma parse_fuel_enough fuel :
  (forall s, (2 * length s + 1 <= fuel)%nat -> parse_value fuel s <> Throw OutOfFuel)
  /\ (forall s, (2 * length s + 2 <= fuel)%nat -> parse_elements fuel s <> Throw OutOfFuel)
  /\ (forall s, (2 * length s + 2 <= fuel)%nat -> parse_members fuel s <> Throw OutOfFuel).
Proof.
  induction fuel as [|fuel (IHv & IHe & IHm)]; [repeat split; intros; lia|].
  destruct (parse_progress fuel) as (Pv & Pe & Pm).
  split; [|split]; intros s Hfuel H;
    cbn [parse_value parse_elements parse_members] in H; unfold rbind in H;
    repeat (break_in H; try discriminate H);
    try (injection H as ->);
    lazymatch goal with
    | Hp : parse_chars ?x = Throw OutOfFuel |- _ =>
        exact (parse_chars_no_fuel (length x) x (Nat.le_refl _) Hp)
    | Hp : parse_number ?x = Throw OutOfFuel |- _ => exact (parse_number_no_fuel x Hp)
    | Hp : parse_value _ ?x = Throw OutOfFuel |- _ =>
        apply IHv in Hp; [exact Hp|]; lengths Pv Pe Pm; simpl in *; lia
    | Hp : parse_elements _ ?x = Throw OutOfFuel |- _ =>
        apply IHe in Hp; [exact Hp|]; lengths Pv Pe Pm; simpl in *; lia
    | Hp : parse_members _ ?x = Throw OutOfFuel |- _ =>
        apply IHm in Hp; [exact Hp|]; lengths Pv Pe Pm; simpl in *; lia
    end.
Qed.

Lemma JSON_parse_fuel text : JSON_parse text <> Throw OutOfFuel.
Proof.
  unfold JSON_parse. cbv zeta. unfold rbind. intros H.
  repeat (break_in H; try discriminate H). injection H as ->.
  destruct (parse_fuel_enough (parse_fuel (of_string text))) as (Hv & _ & _).
  apply (Hv (of_string text)); [unfold parse_fuel; lia | assumption].
Qed.

(** * Properties of the store and the session manager *)

Example simpleHash_empty : simpleHash "" = "811c9dc5".
Proof. vm_compute. reflexivity. Qed.

Example simpleHash_a : simpleHash "a" = "e40c292c".
Proof. vm_compute. reflexivity. Qed.

Lemma lookup_live_set st key v ttl :
  0 < ttl ->
  client_set key (Some v) ttl st =
    (Ok tt, {| kv := <[key := (v, now st + ttl)]> (kv st); now := now st;
               trace := EvSet key v ttl :: trace st |}).
Proof.
  intros Httl. unfold client_set. destruct (Z.leb_spec ttl 0); [lia | reflexivity].
Qed.

Lemma lookup_live_insert st key v ttl tr :
  0 < ttl ->
  lookup_live {| kv := <[key := (v, now st + ttl)]> (kv st); now := now st; trace := tr |} key
  = Some v.
Proof.
  intros Httl. unfold lookup_live. cbn [kv now]. rewrite lookup_insert_eq.
  destruct (Z.ltb_spec (now st) (now st + ttl)); [reflexivity | lia].
Qed.

Lemma lookup_live_log e st key : lookup_live (log e st) key = lookup_live st key.
Proof. reflexivity. Qed.

Lemma getSession_eq sessionId st :
  getSession sessionId st =
  (match lookup_live st sessionId with
   | Some d => if String.eqb d "" then Ok JNull else JSON_parse d
   | None => Ok JNull
   end, log (EvGet sessionId) st).
Proof.
  unfold getSession, await, client_get, parse_stored.
  destruct (lookup_live st sessionId) as [d|]; [|reflexivity].
  destruct (String.eqb d ""); reflexivity.
Qed.

Lemma cacheGet_eq key st : cacheGet key st = getSession key st.
Proof. reflexivity. Qed.

Lemma ser_nonempty v : json_safe v = true -> String.eqb (to_string (ser v)) "" = false.
Proof.
  intros Hsafe. destruct (ser_start v Hsafe) as (c & r & E & _). rewrite E. reflexivity.
Qed.

(** Reading back a history that was written as JSON. *)
Definition holds (st : State) (sessionId : string) (history : list JSValue) : Prop :=
  lookup_live st sessionId = Some (to_string (ser (JArr history))).

Lemma getSession_holds st sessionId history :
  holds st sessionId history -> forallb json_safe history = true ->
  getSession sessionId st = (Ok (JArr history), log (EvGet sessionId) st).
Proof.
  intros Hh Hsafe. rewrite getSession_eq, Hh.
  rewrite (ser_nonempty (JArr history)), JSON_parse_ser by exact Hsafe. reflexivity.
Qed.

Lemma createSession_given E id ttl st :
  id <> "" -> 0 < ttl_or (SESSION_TTL E) ttl ->
  createSession E (Some id) ttl st =
    (Ok id, {| kv := <[id := ("[]", now st + ttl_or (SESSION_TTL E) ttl)]> (kv st);
               now := now st;
               trace := EvSet id "[]" (ttl_or (SESSION_TTL E) ttl) :: trace st |}).
Proof.
  intros Hid Httl. unfold createSession, await.
  destruct (String.eqb_spec id "") as [|_]; [contradiction|].
  unfold ret at 1. change (JSON_stringify (JArr [])) with (Some "[]").
  rewrite lookup_live_set by assumption. reflexivity.
Qed.

Lemma createSession_holds E sessionId ttl st :
  0 < ttl_or (SESSION_TTL E) ttl ->
  exists id st1, createSession E sessionId ttl st = (Ok id, st1) /\ holds st1 id [].
Proof.
  intros Httl. unfold createSession, await.
  assert (Hset : forall id st0, exists st1,
    client_set id (JSON_stringify (JArr [])) (ttl_or (SESSION_TTL E) ttl) st0 = (Ok tt, st1)
    /\ holds st1 id []).
  { intros id st0. change (JSON_stringify (JArr [])) with (Some "[]").
    rewrite lookup_live_set by assumption. eexists; split; [reflexivity|].
    unfold holds. apply lookup_live_insert. assumption. }
  destruct sessionId as [s|]; [destruct (String.eqb s "")|];
    cbn [ret uuid];
    match goal with |- context [client_set ?id _ _ ?st0] =>
      destruct (Hset id st0) as (st1 & -> & Hh) end;
    eexists _, _; (split; [reflexivity | exact Hh]).
Qed.

Lemma appendToSession_holds E sessionId history entry ttl st :
  holds st sessionId history -> forallb json_safe history = true ->
  0 < ttl_or (SESSION_TTL E) ttl ->
  exists st1,
    appendToSession E sessionId entry ttl st = (Ok (JArr (history ++ [entry])), st1)
    /\ holds st1 sessionId (history ++ [entry]).
Proof.
  intros Hh Hsafe Httl. unfold appendToSession, await.
  rewrite (getSession_holds _ _ _ Hh Hsafe).
  cbn [js_or truthy lift array_push].
  change (JSON_stringify (JArr (history ++ [entry])))
    with (Some (to_string (ser (JArr (history ++ [entry]))))).
  rewrite lookup_live_set by assumption.
  eexists; split; [reflexivity|].
  unfold holds. exact (lookup_live_insert (log _ st) _ _ _ _ Httl).
Qed.

(** A run of [appendToSession] calls, one after the other, with the value each returned. *)
Fixpoint append_all (E : Env) (sessionId : string) (calls : list (JSValue * option Z))
  : Async (list JSValue) :=
  match calls with
  | [] => ret []
  | (entry, ttl) :: calls' =>
      let! history := appendToSession E sessionId entry ttl in
      let! rest := append_all E sessionId calls' in
      ret (history :: rest)
  end.

(** The histories the calls are expected to return: each one turn longer. *)
Fixpoint growing (done : list JSValue) (entries : list JSValue) : list JSValue :=
  match entries with
  | [] => []
  | e :: es => JArr (done ++ [e]) :: growing (done ++ [e]) es
  end.

Lemma append_all_holds E sessionId calls : forall history st,
  holds st sessionId history -> forallb json_safe history = true ->
  forallb json_safe (map fst calls) = true ->
  Forall (fun c => 0 < ttl_or (SESSION_TTL E) (snd c)) calls ->
  exists st1,
    append_all E sessionId calls st = (Ok (growing history (map fst calls)), st1)
    /\ holds st1 sessionId (history ++ map fst calls).
Proof.
  induction calls as [|[entry ttl] calls IH]; intros history st Hh Hsafe Hentries Httl.
  - exists st. cbn [map]. rewrite app_nil_r. split; [reflexivity | exact Hh].
  - cbn [map fst forallb] in Hentries. apply andb_prop in Hentries as [He Hes].
    inversion Httl as [|? ? Ht Hts]; subst. cbn [snd] in Ht.
    destruct (appendToSession_holds E sessionId history entry ttl st Hh Hsafe Ht)
      as (st1 & Happ & Hh1).
    assert (Hsafe1 : forallb json_safe (history ++ [entry]) = true).
    { rewrite forallb_app, Hsafe. cbn [forallb]. rewrite He. reflexivity. }
    destruct (IH _ st1 Hh1 Hsafe1 Hes Hts) as (st2 & Hrest & Hh2).
    exists st2. cbn [append_all]. unfold await at 1. rewrite Happ.
    unfold await at 1. rewrite Hrest. cbn [ret map fst growing].
    split; [reflexivity|]. rewrite <- app_assoc in Hh2. exact Hh2.
Qed.

(** C5.  Without concurrent access: right after [createSession] the session
    reads as the empty sequence, not as absent; after any run of
    [appendToSession] calls with serializable turns, each call returned the
    history one turn longer, and [getSession] returns the turns in call
    order. *)
Theorem create_then_append_in_order E sessionId ttl calls st :
  0 < ttl_or (SESSION_TTL E) ttl ->
  Forall (fun c => 0 < ttl_or (SESSION_TTL E) (snd c)) calls ->
  forallb json_safe (map fst calls) = true ->
  exists id st1 st2,
    createSession E sessionId ttl st = (Ok id, st1)
    /\ fst (getSession id st1) = Ok (JArr [])
    /\ append_all E id calls st1 = (Ok (growing [] (map fst calls)), st2)
    /\ fst (getSession id st2) = Ok (JArr (map fst calls)).
Proof.
  intros Httl Hcalls Hsafe.
  destruct (createSession_holds E sessionId ttl st Httl) as (id & st1 & Hc & Hh).
  destruct (append_all_holds E id calls [] st1 Hh eq_refl Hsafe Hcalls) as (st2 & Ha & Hh2).
  exists id, st1, st2. repeat split; try assumption.
  - rewrite (getSession_holds _ _ _ Hh eq_refl). reflexivity.
  - rewrite (getSession_holds _ _ _ Hh2 Hsafe). reflexivity.
Qed.

(** C9.  [createSession(id)] with an id given writes the empty history under
    [id] with a fresh expiry, whatever was stored there and without reading
    it first; [getSession(id)] then returns the empty sequence. *)
Theorem createSession_overwrites E id ttl st :
  id <> "" -> 0 < ttl_or (SESSION_TTL E) ttl ->
  let st1 := snd (createSession E (Some id) ttl st) in
  fst (createSession E (Some id) ttl st) = Ok id
  /\ kv st1 !! id = Some ("[]", now st + ttl_or (SESSION_TTL E) ttl)
  /\ (forall key, key <> id -> kv st1 !! key = kv st !! key)
  /\ trace st1 = EvSet id "[]" (ttl_or (SESSION_TTL E) ttl) :: trace st
  /\ fst (getSession id st1) = Ok (JArr []).
Proof.
  intros Hid Httl. cbv zeta. rewrite (createSession_given E id ttl st Hid Httl).
  cbn [fst snd kv trace]. split; [reflexivity|].
  split; [apply lookup_insert_eq|].
  split; [intros key Hkey; apply lookup_insert_ne; congruence|].
  split; [reflexivity|].
  rewrite getSession_eq. cbn [fst].
  rewrite (lookup_live_insert st id "[]" _ _ Httl). reflexivity.
Qed.

(** * The cache *)

Definition empty_state : State := {| kv := ∅; now := 0; trace := [] |}.

(** C2, as stated, fails on strings: [cacheSet] stores a string verbatim and
    [cacheGet] parses what it reads as JSON.  A word is not JSON, so the read
    throws; a string of digits comes back as a number; the empty string comes
    back as [null]. *)
Lemma cache_string_not_restored :
  json_safe (JStr "hello") = true
  /\ fst (cacheGet "k" (snd (cacheSet "k" (JStr "hello") None empty_state))) = Throw SyntaxError
  /\ fst (cacheGet "k" (snd (cacheSet "k" (JStr "42") None empty_state))) = Ok (JNum 42)
  /\ fst (cacheGet "k" (snd (cacheSet "k" (JStr "") None empty_state))) = Ok JNull
  /\ kv (snd (cacheSet "k" (JStr "hello") None empty_state)) !! "k" = Some ("hello", 3600).
Proof. vm_compute. repeat split; reflexivity. Qed.

Definition is_string (v : JSValue) : bool :=
  match v with
  | JStr _ => true
  | _ => false
  end.

(** C2, amended.  For every key and every serializable value that is not
    itself a string, [cacheGet] after [cacheSet], at any instant before the
    expiry, returns the value. *)
Theorem cache_roundtrip key v ttl elapsed st :
  json_safe v = true -> is_string v = false ->
  0 <= elapsed < ttl_or 3600 ttl ->
  fst (cacheGet key (advance elapsed (snd (cacheSet key v ttl st)))) = Ok v.
Proof.
  intros Hsafe Hstr Httl. unfold cacheSet.
  assert (Hval : match v with JStr s => Some s | _ => JSON_stringify v end
                 = Some (to_string (ser v))).
  { destruct v; try reflexivity; discriminate. }
  rewrite Hval, lookup_live_set by lia. cbn [snd].
  rewrite cacheGet_eq, getSession_eq. cbn [fst].
  unfold lookup_live, advance. cbn [kv now]. rewrite lookup_insert_eq.
  destruct (Z.ltb_spec (now st + elapsed) (now st + ttl_or 3600 ttl)); [|lia].
  rewrite (ser_nonempty v Hsafe). apply JSON_parse_ser. exact Hsafe.
Qed.

(** Once the expiry has passed the entry reads as absent. *)
Lemma cache_expired key v ttl elapsed st :
  json_safe v = true -> 0 < ttl_or 3600 ttl <= elapsed ->
  fst (cacheGet key (advance elapsed (snd (cacheSet key v ttl st)))) = Ok JNull.
Proof.
  intros Hsafe Httl. unfold cacheSet.
  assert (Hval : exists text, match v with JStr s => Some s | _ => JSON_stringify v end
                              = Some text).
  { destruct v; try discriminate Hsafe; eexists; reflexivity. }
  destruct Hval as [text ->]. rewrite lookup_live_set by lia. cbn [snd].
  rewrite cacheGet_eq, getSession_eq. cbn [fst].
  unfold lookup_live, advance. cbn [kv now]. rewrite lookup_insert_eq.
  destruct (Z.ltb_spec (now st + elapsed) (now st + ttl_or 3600 ttl)); [lia | reflexivity].
Qed.

(** * getSession on what the store holds *)

Definition holding (key value : string) : State :=
  {| kv := {[ key := (value, 1800) ]}; now := 0; trace := [] |}.

(** C3, as stated, fails: stored data that is valid JSON but not an array is
    returned as it parses, with no failure, and a stored [null] or empty
    string reads as the absence marker. *)
Lemma getSession_returns_non_array :
  fst (getSession "s1" (holding "s1" "123")) = Ok (JNum 123)
  /\ fst (getSession "s1" (holding "s1" "{}")) = Ok (JObj [])
  /\ fst (getSession "s1" (holding "s1" "null")) = Ok JNull
  /\ fst (getSession "s1" (holding "s1" "")) = Ok JNull.
Proof. vm_compute. repeat split; reflexivity. Qed.

(** C3, amended.  [getSession] returns [null], never an empty array, when the
    key is absent, expired or holds the empty string; it throws what
    [JSON.parse] throws when the stored text is not empty and not JSON; and
    it returns the parsed value, array or not, when the text is JSON.  An
    empty array comes back only from a stored text that parses to one. *)
Theorem getSession_outcomes sessionId st :
  (lookup_live st sessionId = None \/ lookup_live st sessionId = Some "" ->
     fst (getSession sessionId st) = Ok JNull)
  /\ (forall data e,
        lookup_live st sessionId = Some data -> data <> "" ->
        JSON_parse data = Throw e -> fst (getSession sessionId st) = Throw e)
  /\ (forall data v,
        lookup_live st sessionId = Some data -> JSON_parse data = Ok v ->
        fst (getSession sessionId st) = Ok v)
  /\ (fst (getSession sessionId st) = Ok (JArr []) ->
        exists data, lookup_live st sessionId = Some data
                     /\ JSON_parse data = Ok (JArr [])).
Proof.
  rewrite getSession_eq. cbn [fst].
  destruct (lookup_live st sessionId) as [d|] eqn:Hd.
  - destruct (String.eqb_spec d "") as [->|Hne].
    + split; [reflexivity|]. split; [intros ? ? [= <-] Habs; contradiction|].
      split; [intros ? ? [= <-] Hp; vm_compute in Hp; discriminate|].
      discriminate.
    + split; [intros [|[= ->]]; [discriminate | contradiction]|].
      split; [intros ? ? [= <-] _ Hp; exact Hp|].
      split; [intros ? ? [= <-] Hp; exact Hp|].
      intros Hp. exists d. split; [reflexivity | exact Hp].
  - split; [reflexivity|]. split; [discriminate|]. split; [discriminate|]. discriminate.
Qed.

(** * The prompt *)

Record Turn : Type := mkTurn { turn_query : string; turn_answer : string }.

Record Passage : Type := mkPassage {
  passage_title : string;
  passage_content : string;
  passage_link : option string
}.

Definition turn_value (t : Turn) : JSValue :=
  JObj [("query", JStr (turn_query t)); ("answer", JStr (turn_answer t))].

Definition passage_value (p : Passage) : JSValue :=
  JObj [("title", JStr (passage_title p)); ("content", JStr (passage_content p));
        ("link", match passage_link p with Some l => JStr l | None => JNull end)].

(** The layout as the specification words it, numbering from [i]. *)
Fixpoint turn_lines (i : Z) (history : list Turn) : list string :=
  match history with
  | [] => []
  | t :: rest =>
      ("Q" +:+ decimal i +:+ ": " +:+ turn_query t +:+ nl
       +:+ "A" +:+ decimal i +:+ ": " +:+ turn_answer t)
      :: turn_lines (i + 1) rest
  end.

Fixpoint passage_blocks (i : Z) (passages : list Passage) : list string :=
  match passages with
  | [] => []
  | p :: rest =>
      ("[Passage " +:+ decimal i +:+ "]" +:+ nl +:+ "Title: " +:+ passage_title p +:+ nl
       +:+ "Content: " +:+ passage_content p)
      :: passage_blocks (i + 1) rest
  end.

Definition conversation_block (history : list Turn) : string :=
  match history with
  | [] => ""
  | _ :: _ => "Conversation so far:" +:+ nl +:+ join_with nl (turn_lines 1 history) +:+ nl +:+ nl
  end.

Definition prompt_layout (history : list Turn) (query : string) (passages : list Passage)
  : string :=
  conversation_block history
  +:+ "Context:" +:+ nl +:+ join_with (nl +:+ nl) (passage_blocks 1 passages) +:+ nl +:+ nl
  +:+ "User: " +:+ query +:+ nl +:+ nl +:+ INSTRUCTIONS.

Fixpoint ends_with_chars (suffix s : chars) : bool :=
  if (length suffix =? length s)%nat then forallb (fun p => Ascii.eqb (fst p) (snd p)) (combine suffix s)
  else
    match s with
    | [] => false
    | _ :: s' => ends_with_chars suffix s'
    end.

Definition ends_with (suffix s : string) : bool :=
  ends_with_chars (of_string suffix) (of_string s).

Definition scenario_prompt : string :=
  match buildPromptWithHistory (JArr []) "What is X?"
          (JArr [passage_value (mkPassage "T" "C" None)]) with
  | Ok p => p
  | Throw _ => ""
  end.

(** C4, as stated, fails in its last part: the prompt of the scenario does
    not end with the user line, the instruction block follows it. *)
Lemma scenario_prompt_ends_with_answer :
  ends_with "User: What is X?" scenario_prompt = false
  /\ ends_with "Answer:" scenario_prompt = true
  /\ includes "User: What is X?" scenario_prompt = true.
Proof. vm_compute. repeat split; reflexivity. Qed.

Lemma render_turns i history :
  mapi_result render_turn i (map turn_value history)
  = Ok (turn_lines (Z.of_nat i + 1) history).
Proof.
  revert i. induction history as [|t rest IH]; intros i; [reflexivity|].
  cbn [map mapi_result turn_lines]. rewrite IH.
  replace (Z.of_nat (S i) + 1) with (Z.of_nat i + 1 + 1) by lia. reflexivity.
Qed.

Lemma render_passages i passages :
  mapi_result render_passage i (map passage_value passages)
  = Ok (passage_blocks (Z.of_nat i + 1) passages).
Proof.
  revert i. induction passages as [|p rest IH]; intros i; [reflexivity|].
  cbn [map mapi_result passage_blocks]. rewrite IH.
  replace (Z.of_nat (S i) + 1) with (Z.of_nat i + 1 + 1) by lia.
  destruct p as [t c [l|]]; reflexivity.
Qed.

Lemma join_with_lines_nonempty i t rest :
  String.eqb (join_with nl (turn_lines i (t :: rest))) "" = false.
Proof. destruct rest; reflexivity. Qed.

(** C4, amended.  [buildPromptWithHistory] is a function of its three
    arguments alone; with no history the prompt opens with the context and
    has no conversation block; the turns are the lines Q1/A1, Q2/A2, ... in
    history order and the passages the blocks [Passage 1], [Passage 2], ...
    in the order given; the user line follows them and the fixed instruction
    block, which ends with "Answer:", closes the prompt. *)
Theorem buildPrompt_layout history query passages :
  buildPromptWithHistory (JArr (map turn_value history)) query
    (JArr (map passage_value passages))
  = Ok (prompt_layout history query passages)
  /\ conversation_block [] = ""
  /\ prompt_layout [] "What is X?" [mkPassage "T" "C" None]
     = "Context:" +:+ nl +:+ "[Passage 1]" +:+ nl +:+ "Title: T" +:+ nl +:+ "Content: C"
       +:+ nl +:+ nl +:+ "User: What is X?" +:+ nl +:+ nl +:+ INSTRUCTIONS
  /\ ends_with "Answer:" INSTRUCTIONS = true.
Proof.
  split; [|split; [reflexivity | split; [reflexivity | vm_compute; reflexivity]]].
  unfold buildPromptWithHistory, prompt_layout, array_map.
  cbn [js_or truthy]. rewrite (render_turns 0), (render_passages 0). cbn [rbind].
  change (Z.of_nat 0 + 1) with 1.
  destruct history as [|t rest]; [reflexivity|].
  rewrite join_with_lines_nonempty. reflexivity.
Qed.

(** * Cache keys *)

Lemma append_inj_l (p s1 s2 : string) : p +:+ s1 = p +:+ s2 -> s1 = s2.
Proof. induction p as [|c p IH]; simpl; [trivial|]. intros [= H]. auto. Qed.

Lemma to_string_inj cs1 cs2 : to_string cs1 = to_string cs2 -> cs1 = cs2.
Proof. intros H. rewrite <- (of_to_string cs1), <- (of_to_string cs2), H. reflexivity. Qed.

Lemma num_to_string_inj k1 k2 : num_to_string k1 = num_to_string k2 -> k1 = k2.
Proof.
  assert (Hnan : forall z, decimal z <> "NaN").
  { intros z H. unfold decimal in H. change "NaN" with (to_string (of_string "NaN")) in H.
    apply to_string_inj in H. unfold Z_to_decimal in H.
    destruct (z <? 0); [discriminate H|].
    destruct (N_to_decimal_spec (Z.to_N z)) as (Hall & _ & _).
    rewrite H in Hall. inversion Hall as [|? ? Hd _]. discriminate Hd. }
  destruct k1 as [|z1], k2 as [|z2]; cbn [num_to_string]; intros H.
  - reflexivity.
  - symmetry in H. apply Hnan in H. contradiction.
  - apply Hnan in H. contradiction.
  - unfold decimal in H. apply to_string_inj, Z_to_decimal_inj in H. congruence.
Qed.

Lemma retrieve_key_inj query k1 k2 :
  retrieve_key query k1 = retrieve_key query k2 -> k1 = k2.
Proof.
  unfold retrieve_key. intros H.
  do 3 apply append_inj_l in H. apply num_to_string_inj. exact H.
Qed.

Lemma prefix_append p s : String.prefix p (p +:+ s) = true.
Proof.
  induction p as [|c p IH]; simpl; [destruct s; reflexivity|].
  destruct (ascii_dec c c); [exact IH | contradiction].
Qed.

Lemma embed_key_prefix text : String.prefix "embed:" (embed_key text) = true.
Proof. apply prefix_append. Qed.

Lemma retrieve_key_prefix query k : String.prefix "retrieve:" (retrieve_key query k) = true.
Proof. apply prefix_append. Qed.

Lemma embed_retrieve_apart text query k : embed_key text <> retrieve_key query k.
Proof. discriminate. Qed.

(** * What a computation leaves in place *)

(** The entry under [key], with its expiry, and the clock are as before. *)
Definition untouched (key : string) (st st' : State) : Prop :=
  kv st' !! key = kv st !! key /\ now st' = now st.

Definition keeps {A} (key : string) (m : Async A) : Prop :=
  forall st, untouched key st (snd (m st)).

(** Nothing changes under [key] when the computation throws. *)
Definition clean {A} (key : string) (m : Async A) : Prop :=
  forall st e st', m st = (Throw e, st') -> untouched key st st'.

Definition total {A} (m : Async A) : Prop :=
  forall st, exists a st', m st = (Ok a, st').

Lemma untouched_refl key st : untouched key st st.
Proof. split; reflexivity. Qed.

Lemma untouched_trans key st1 st2 st3 :
  untouched key st1 st2 -> untouched key st2 st3 -> untouched key st1 st3.
Proof. intros [H1 H2] [H3 H4]. split; congruence. Qed.

Lemma untouched_lookup_live key st st' :
  untouched key st st' -> lookup_live st' key = lookup_live st key.
Proof. intros [Hkv Hnow]. unfold lookup_live. rewrite Hkv, Hnow. reflexivity. Qed.

Lemma await_ok {A B} (m : Async A) (k : A -> Async B) st b st' :
  await m k st = (Ok b, st') ->
  exists a st1, m st = (Ok a, st1) /\ k a st1 = (Ok b, st').
Proof.
  unfold await. destruct (m st) as [[a|e] st1]; [eauto | discriminate].
Qed.

Lemma await_throw {A B} (m : Async A) (k : A -> Async B) st e st' :
  await m k st = (Throw e, st') ->
  m st = (Throw e, st') \/ exists a st1, m st = (Ok a, st1) /\ k a st1 = (Throw e, st').
Proof.
  unfold await. destruct (m st) as [[a|e0] st1]; [eauto | intros [= -> ->]; auto].
Qed.

Section Frames.
Context {A B : Type} (key : string).

Lemma keeps_ret (a : A) : keeps key (ret a).
Proof. intros st. apply untouched_refl. Qed.

Lemma keeps_throw e : keeps key (@throw A e).
Proof. intros st. apply untouched_refl. Qed.

Lemma keeps_lift (r : result A) : keeps key (lift r).
Proof. intros st. apply untouched_refl. Qed.

Lemma keeps_logged (f : State -> result A) (ev : State -> Event) :
  keeps key (fun st => (f st, log (ev st) st)).
Proof. intros st. split; reflexivity. Qed.

Lemma keeps_await (m : Async A) (k : A -> Async B) :
  keeps key m -> (forall a, keeps key (k a)) -> keeps key (await m k).
Proof.
  intros Hm Hk st. specialize (Hm st). unfold await.
  destruct (m st) as [[a|e] st1]; cbn [snd] in *; [|exact Hm].
  eapply untouched_trans; [exact Hm | apply Hk].
Qed.

Lemma keeps_clean (m : Async A) : keeps key m -> clean key m.
Proof. intros Hm st e st' H. specialize (Hm st). rewrite H in Hm. exact Hm. Qed.

Lemma clean_await (m : Async A) (k : A -> Async B) :
  keeps key m -> (forall a, clean key (k a)) -> clean key (await m k).
Proof.
  intros Hm Hk st e st' H. specialize (Hm st).
  apply await_throw in H as [H | (a & st1 & H1 & H2)]; rewrite H in Hm || rewrite H1 in Hm.
  - exact Hm.
  - eapply untouched_trans; [exact Hm | eapply Hk; exact H2].
Qed.

Lemma clean_await_total (m : Async A) (k : A -> Async B) :
  clean key m -> (forall a, total (k a)) -> clean key (await m k).
Proof.
  intros Hm Hk st e st' H.
  apply await_throw in H as [H | (a & st1 & H1 & H2)].
  - eapply Hm; exact H.
  - destruct (Hk a st1) as (b & st2 & Hok). congruence.
Qed.
End Frames.

Lemma total_ret {A} (a : A) : total (ret a).
Proof. intros st. eexists _, _. reflexivity. Qed.

Lemma keeps_client_get key key' : keeps key (client_get key').
Proof. intros st. split; reflexivity. Qed.

Lemma keeps_client_set key key' value ttl :
  key <> key' -> keeps key (client_set key' value ttl).
Proof.
  intros Hne st. unfold client_set.
  destruct value as [v|]; [|apply untouched_refl].
  destruct (ttl <=? 0); [split; reflexivity|].
  split; [|reflexivity]. cbn [snd kv]. apply lookup_insert_ne. congruence.
Qed.

Lemma clean_client_set key key' value ttl : clean key (client_set key' value ttl).
Proof.
  intros st e st'. unfold client_set.
  destruct value as [v|]; [|intros [= _ <-]; apply untouched_refl].
  destruct (ttl <=? 0); [intros [= _ <-]; split; reflexivity | discriminate].
Qed.

Lemma keeps_parse_stored key data : keeps key (parse_stored data).
Proof.
  unfold parse_stored. destruct data as [d|]; [destruct (String.eqb d "")|];
    intros st; apply untouched_refl.
Qed.

Lemma keeps_getSession key sessionId : keeps key (getSession sessionId).
Proof.
  apply keeps_await; [apply keeps_client_get | intros; apply keeps_parse_stored].
Qed.

Lemma keeps_cacheSet key key' value ttl : key <> key' -> keeps key (cacheSet key' value ttl).
Proof. intros Hne. apply keeps_client_set. exact Hne. Qed.

Lemma keeps_getEmbedding E key text :
  key <> embed_key text -> keeps key (getEmbedding E text).
Proof.
  intros Hne. unfold getEmbedding.
  destruct (String.eqb text "" || String.eqb (trim text) ""); [apply keeps_ret|].
  apply keeps_await; [apply keeps_getSession|]. intros cached.
  destruct (truthy cached); [apply keeps_ret|].
  apply keeps_await; [apply (keeps_logged key (fun st => embed_post E (trace st) _ _) (fun _ => _))|].
  intros body. destruct (negb _); [apply keeps_throw|].
  apply keeps_await; [apply keeps_cacheSet; exact Hne | intros; apply keeps_ret].
Qed.

Lemma keeps_retrieveTopK E key query k :
  key <> embed_key query -> key <> retrieve_key query k ->
  keeps key (retrieveTopK E query k).
Proof.
  intros He Hr. unfold retrieveTopK.
  apply keeps_await; [apply keeps_getSession|]. intros cached.
  destruct (truthy cached); [apply keeps_ret|].
  apply keeps_await; [apply keeps_getEmbedding; exact He|]. intros emb.
  apply keeps_await;
    [apply (keeps_logged key (fun st => qdrant_search E (trace st) _ _ _) (fun _ => _))|].
  intros results. apply keeps_await; [apply keeps_lift|]. intros payloads.
  apply keeps_await; [apply keeps_cacheSet; exact Hr | intros; apply keeps_ret].
Qed.

Lemma keeps_askModel E key prompt : keeps key (askModel E prompt).
Proof.
  apply keeps_await;
    [apply (keeps_logged key (fun st => generate_post E (trace st) _) (fun _ => _))
    | intros; apply keeps_ret].
Qed.

Lemma clean_appendToSession E key sessionId entry ttl :
  clean key (appendToSession E sessionId entry ttl).
Proof.
  apply clean_await; [apply keeps_getSession|]. intros stored.
  apply clean_await; [apply keeps_lift|]. intros history.
  apply clean_await_total; [apply clean_client_set | intros; apply total_ret].
Qed.

Definition chat_k (topK : JSValue) : jsnum := parseInt (ToString (js_or topK (JStr "5"))).

Lemma clean_chat_turn E sessionId query topK :
  sessionId <> embed_key query -> sessionId <> retrieve_key query (chat_k topK) ->
  clean sessionId (chat_turn E sessionId query topK).
Proof.
  intros He Hr. unfold chat_turn.
  apply clean_await; [apply keeps_getSession|]. intros stored.
  apply clean_await; [apply keeps_retrieveTopK; assumption|]. intros passages.
  apply clean_await; [apply keeps_lift|]. intros prompt.
  apply clean_await; [apply keeps_askModel|]. intros answer.
  apply clean_await_total; [apply clean_appendToSession | intros; apply total_ret].
Qed.

Lemma await_step {A B} (m : Async A) (k : A -> Async B) st a st1 :
  m st = (Ok a, st1) -> await m k st = k a st1.
Proof. intros H. unfold await. rewrite H. reflexivity. Qed.

Lemma await_fail {A B} (m : Async A) (k : A -> Async B) st e st1 :
  m st = (Throw e, st1) -> await m k st = (Throw e, st1).
Proof. intros H. unfold await. rewrite H. reflexivity. Qed.

Lemma askModel_eq E prompt st :
  askModel E prompt st =
  (match generate_post E (trace st) prompt with
   | Ok reply => Ok (js_or (first_text reply) JNull)
   | Throw e => Throw e
   end, log (EvGenerate prompt) st).
Proof.
  unfold askModel, await. destruct (generate_post E (trace st) prompt); reflexivity.
Qed.

(** A successful append read the session, then wrote it: two events, the
    write last. *)
Lemma appendToSession_ok E sessionId entry ttl st history st' :
  appendToSession E sessionId entry ttl st = (Ok history, st') ->
  exists l value,
    fst (getSession sessionId st) = Ok l
    /\ array_push (js_or l (JArr [])) entry = Ok history
    /\ JSON_stringify history = Some value
    /\ 0 < ttl_or (SESSION_TTL E) ttl
    /\ st' = {| kv := <[sessionId := (value, now st + ttl_or (SESSION_TTL E) ttl)]> (kv st);
                now := now st;
                trace := EvSet sessionId value (ttl_or (SESSION_TTL E) ttl)
                         :: EvGet sessionId :: trace st |}.
Proof.
  unfold appendToSession. intros H.
  apply await_ok in H as (stored & st1 & Hget & H).
  apply await_ok in H as (history' & st2 & Hpush & H).
  apply await_ok in H as ([] & st3 & Hset & H).
  injection H as <- <-. injection Hpush as Hpush <-.
  rewrite getSession_eq in Hget. injection Hget as Hget <-.
  rewrite getSession_eq. cbn [fst]. rewrite Hget.
  unfold client_set in Hset. destruct (JSON_stringify history') as [value|]; [|discriminate].
  destruct (Z.leb_spec (ttl_or (SESSION_TTL E) ttl) 0); [discriminate|].
  injection Hset as <-. exists stored, value. repeat split; assumption.
Qed.

Lemma appendToSession_array E sessionId entry ttl st stored l :
  fst (getSession sessionId st) = Ok stored -> js_or stored (JArr []) = JArr l ->
  0 < ttl_or (SESSION_TTL E) ttl ->
  appendToSession E sessionId entry ttl st =
    (Ok (JArr (l ++ [entry])),
     {| kv := <[sessionId := (to_string (ser (JArr (l ++ [entry]))),
                              now st + ttl_or (SESSION_TTL E) ttl)]> (kv st);
        now := now st;
        trace := EvSet sessionId (to_string (ser (JArr (l ++ [entry]))))
                   (ttl_or (SESSION_TTL E) ttl) :: EvGet sessionId :: trace st |}).
Proof.
  intros Hget Hl Httl. unfold appendToSession.
  rewrite getSession_eq in *. cbn [fst] in Hget.
  erewrite await_step; [| rewrite getSession_eq, Hget; reflexivity].
  rewrite Hl. cbn [array_push].
  erewrite await_step; [| reflexivity].
  change (JSON_stringify (JArr (l ++ [entry])))
    with (Some (to_string (ser (JArr (l ++ [entry]))))).
  erewrite await_step; [| apply lookup_live_set; exact Httl].
  reflexivity.
Qed.

(** * The chat turn *)

Definition search_down : Env :=
  {| SESSION_TTL := 1800; EMBED_MODEL := "jina-embeddings-v2-base-en";
     COLLECTION := "news_articles";
     uuid_v4 := fun _ => "00000000-0000-4000-8000-000000000000";
     embed_post := fun _ _ _ =>
       Ok (JObj [("data", JArr [JObj [("embedding", JArr [JNum 1; JNum 2])]])]);
     qdrant_search := fun _ _ _ _ => Throw (RequestError "index unavailable");
     generate_post := fun _ _ => Throw (RequestError "model unavailable") |}.

(** C1, as stated, fails for a session ID that is also a cache key of the
    turn: the embedding is cached under it before the search fails. *)
Lemma failed_turn_overwrites_colliding_session :
  let sessionId := embed_key "hi" in
  let run := post_chat search_down sessionId (JObj [("query", JStr "hi")]) empty_state in
  fst run = ChatFailed (RequestError "index unavailable")
  /\ kv empty_state !! sessionId = None
  /\ kv (snd run) !! sessionId = Some ("[1,2]", 86400)
  /\ fst (getSession sessionId empty_state) = Ok JNull
  /\ fst (getSession sessionId (snd run)) = Ok (JArr [JNum 1; JNum 2]).
Proof. vm_compute. repeat split; reflexivity. Qed.

(** C1, amended.  For a session ID that is neither the embedding cache key
    nor the retrieval cache key of the turn (any ID outside the [embed:] and
    [retrieve:] namespaces): a turn that throws leaves the entry under the
    session ID as it was; a failure of the retrieval or of the generation
    aborts the turn with that failure; and a turn that succeeds wrote the
    session as its last step, after the read of the append and after a
    generation call that answered. *)
Theorem chat_failure_keeps_session E sessionId query topK st :
  sessionId <> embed_key query ->
  sessionId <> retrieve_key query (chat_k topK) ->
  (forall e st', chat_turn E sessionId query topK st = (Throw e, st') ->
     untouched sessionId st st')
  /\ (forall stored st1 e st2,
        getSession sessionId st = (Ok stored, st1) ->
        retrieveTopK E query (chat_k topK) st1 = (Throw e, st2) ->
        chat_turn E sessionId query topK st = (Throw e, st2)
        /\ untouched sessionId st st2)
  /\ (forall stored st1 passages st2 prompt e,
        getSession sessionId st = (Ok stored, st1) ->
        retrieveTopK E query (chat_k topK) st1 = (Ok passages, st2) ->
        buildPromptWithHistory (js_or stored (JArr [])) query passages = Ok prompt ->
        generate_post E (trace st2) prompt = Throw e ->
        chat_turn E sessionId query topK st = (Throw e, log (EvGenerate prompt) st2)
        /\ untouched sessionId st (log (EvGenerate prompt) st2))
  /\ (forall r st', chat_turn E sessionId query topK st = (Ok r, st') ->
        exists answer history prompt reply value past,
          r = ChatOk sessionId query answer history
          /\ trace st' = EvSet sessionId value (SESSION_TTL E) :: EvGet sessionId
                         :: EvGenerate prompt :: past
          /\ generate_post E past prompt = Ok reply
          /\ answer = js_or (first_text reply) JNull).
Proof.
  intros He Hr.
  pose proof (clean_chat_turn E sessionId query topK He Hr) as Hclean.
  split; [intros e st' H; exact (Hclean st e st' H)|].
  assert (Hretr : forall stored st1 e st2,
    getSession sessionId st = (Ok stored, st1) ->
    retrieveTopK E query (chat_k topK) st1 = (Throw e, st2) ->
    chat_turn E sessionId query topK st = (Throw e, st2)).
  { intros stored st1 e st2 H1 H2. unfold chat_turn.
    rewrite (await_step _ _ _ _ _ H1). fold (chat_k topK).
    apply await_fail. exact H2. }
  assert (Hgen : forall stored st1 passages st2 prompt e,
    getSession sessionId st = (Ok stored, st1) ->
    retrieveTopK E query (chat_k topK) st1 = (Ok passages, st2) ->
    buildPromptWithHistory (js_or stored (JArr [])) query passages = Ok prompt ->
    generate_post E (trace st2) prompt = Throw e ->
    chat_turn E sessionId query topK st = (Throw e, log (EvGenerate prompt) st2)).
  { intros stored st1 passages st2 prompt e H1 H2 H3 H4. unfold chat_turn.
    rewrite (await_step _ _ _ _ _ H1). fold (chat_k topK).
    rewrite (await_step _ _ _ _ _ H2). rewrite H3.
    erewrite await_step; [| reflexivity].
    apply await_fail. rewrite askModel_eq, H4. reflexivity. }
  split; [|split].
  - intros stored st1 e st2 H1 H2. pose proof (Hretr _ _ _ _ H1 H2) as H.
    split; [exact H | exact (Hclean _ _ _ H)].
  - intros stored st1 passages st2 prompt e H1 H2 H3 H4.
    pose proof (Hgen _ _ _ _ _ _ H1 H2 H3 H4) as H.
    split; [exact H | exact (Hclean _ _ _ H)].
  - intros r st' H. unfold chat_turn in H.
    apply await_ok in H as (stored & st1 & _ & H).
    apply await_ok in H as (passages & st2 & _ & H).
    apply await_ok in H as (prompt & st2' & Hp & H).
    injection Hp as _ <-.
    apply await_ok in H as (answer & st3 & Hask & H).
    apply await_ok in H as (history & st4 & Happ & H).
    injection H as <- <-.
    rewrite askModel_eq in Hask. injection Hask as Hans <-.
    destruct (generate_post E (trace st2) prompt) as [reply|] eqn:Hreply; [|discriminate].
    injection Hans as <-.
    apply appendToSession_ok in Happ as (l & value & _ & _ & _ & _ & ->).
    exists (js_or (first_text reply) JNull), history, prompt, reply, value, (trace st2).
    split; [reflexivity|]. split; [reflexivity|]. split; [exact Hreply | reflexivity].
Qed.

Lemma chat_turn_response E sessionId query topK st r st' :
  chat_turn E sessionId query topK st = (Ok r, st') ->
  exists answer history, r = ChatOk sessionId query answer history.
Proof.
  unfold chat_turn. intros H.
  apply await_ok in H as (stored & st1 & _ & H).
  apply await_ok in H as (passages & st2 & _ & H).
  apply await_ok in H as (prompt & st3 & _ & H).
  apply await_ok in H as (answer & st4 & _ & H).
  apply await_ok in H as (history & st5 & _ & H).
  injection H as <- _. eauto.
Qed.

(** The same for the route: with a session ID outside the two cache
    namespaces, every answer other than 200 leaves the session as it was. *)
Lemma post_chat_failure_outside_namespaces E sessionId body st :
  String.prefix "embed:" sessionId = false ->
  String.prefix "retrieve:" sessionId = false ->
  match fst (post_chat E sessionId body st) with
  | ChatOk _ _ _ _ => True
  | _ => untouched sessionId st (snd (post_chat E sessionId body st))
  end.
Proof.
  intros He Hr. unfold post_chat.
  destruct (own_prop (js_or body (JObj [])) "query") as [| | | |q| |];
    try apply untouched_refl.
  destruct (negb (truthy (JStr q))); [apply untouched_refl|].
  destruct (chat_turn E sessionId q (own_prop (js_or body (JObj [])) "topK") st)
    as [[r|e] st'] eqn:Hrun; cbn [fst snd].
  - apply chat_turn_response in Hrun as (answer & history & ->). exact I.
  - eapply clean_chat_turn; [| | exact Hrun]; intros ->.
    + rewrite embed_key_prefix in He. discriminate He.
    + rewrite retrieve_key_prefix in Hr. discriminate Hr.
Qed.

(** * Retrieval and embedding caches *)

Lemma retrieveTopK_first_reads_its_key E query k st :
  exists later,
    trace (snd (retrieveTopK E query k st)) = later ++ EvGet (retrieve_key query k) :: trace st.
Proof.
  unfold retrieveTopK, await at 1. rewrite cacheGet_eq, getSession_eq.
  set (st1 := log (EvGet (retrieve_key query k)) st).
  assert (Hgrow : forall {A} (m : Async A),
            (forall s, exists l, trace (snd (m s)) = l ++ trace s) ->
            exists later, trace (snd (m st1)) = later ++ EvGet (retrieve_key query k) :: trace st).
  { intros A m Hm. destruct (Hm st1) as [l Hl]. exists l. exact Hl. }
  assert (Hret : forall {A} (a : A) s, exists l, trace (snd (ret a s)) = l ++ trace s)
    by (intros; exists []; reflexivity).
  assert (Hawait : forall {A B} (m : Async A) (f : A -> Async B),
            (forall s, exists l, trace (snd (m s)) = l ++ trace s) ->
            (forall a s, exists l, trace (snd (f a s)) = l ++ trace s) ->
            forall s, exists l, trace (snd (await m f s)) = l ++ trace s).
  { intros A B m f Hm Hf s. unfold await. destruct (Hm s) as [l1 H1].
    destruct (m s) as [[a|e] s1]; cbn [snd] in *; [|eauto].
    destruct (Hf a s1) as [l2 H2]. exists (l2 ++ l1). rewrite H2, H1, app_assoc. reflexivity. }
  assert (Hlog : forall {A} (f : State -> result A) (ev : Event) s,
            exists l, trace (snd ((fun st => (f st, log ev st)) s)) = l ++ trace s)
    by (intros; exists [ev]; reflexivity).
  assert (Hset : forall key value ttl s,
            exists l, trace (snd (client_set key value ttl s)) = l ++ trace s).
  { intros key value ttl s. unfold client_set. destruct value as [v|]; [|exists []; reflexivity].
    destruct (ttl <=? 0); exists [EvSet key v ttl]; reflexivity. }
  assert (Hget : forall key s, exists l, trace (snd (getSession key s)) = l ++ trace s).
  { intros key s. rewrite getSession_eq. exists [EvGet key]. reflexivity. }
  destruct (match lookup_live st (retrieve_key query k) with
            | Some d => if String.eqb d "" then Ok JNull else JSON_parse d
            | None => Ok JNull
            end) as [cached|e]; [|exists []; reflexivity].
  destruct (truthy cached); [exists []; reflexivity|].
  apply Hgrow. apply Hawait.
  - intros s. unfold getEmbedding.
    destruct (String.eqb query "" || String.eqb (trim query) ""); [apply Hret|].
    apply Hawait; [apply Hget|]. intros c s'.
    destruct (truthy c); [apply Hret|].
    apply Hawait; [intros s''; apply (Hlog _ (fun st => embed_post E (trace st) _ _))|].
    intros body s''. destruct (negb _); [exists []; reflexivity|].
    apply Hawait; [apply Hset | intros; apply Hret].
  - intros emb. apply Hawait;
      [intros s; apply (Hlog _ (fun st => qdrant_search E (trace st) _ _ _))|].
    intros results. apply Hawait; [intros s; exists []; reflexivity|].
    intros payloads. apply Hawait; [apply Hset | intros; apply Hret].
Qed.

(** C6.  The cache key of [retrieveTopK] is built from the fingerprint of the
    query and from [k]; for [k1] and [k2] that differ the two keys differ,
    each call reads its own key first, and the call for [k1] leaves the entry
    under the key of [k2] as it was. *)
Theorem retrieve_keys_distinct E query k1 k2 st :
  k1 <> k2 ->
  retrieve_key query k1 <> retrieve_key query k2
  /\ retrieve_key query k1 = "retrieve:" +:+ simpleHash query +:+ ":k" +:+ num_to_string k1
  /\ (exists later, trace (snd (retrieveTopK E query k1 st))
                    = later ++ EvGet (retrieve_key query k1) :: trace st)
  /\ untouched (retrieve_key query k2) st (snd (retrieveTopK E query k1 st)).
Proof.
  intros Hk.
  assert (Hne : retrieve_key query k1 <> retrieve_key query k2).
  { intros H. apply Hk. eapply retrieve_key_inj. exact H. }
  split; [exact Hne|]. split; [reflexivity|].
  split; [apply retrieveTopK_first_reads_its_key|].
  apply keeps_retrieveTopK; [| congruence].
  intros H. symmetry in H. revert H. apply embed_retrieve_apart.
Qed.

Lemma trim_start_blank cs : forallb is_js_space cs = true -> trim_start cs = [].
Proof.
  induction cs as [|c cs IH]; [reflexivity|]. cbn [forallb trim_start].
  intros H. apply andb_prop in H as [-> H]. auto.
Qed.

Lemma trim_blank text : forallb is_js_space (of_string text) = true -> trim text = "".
Proof. intros H. unfold trim. rewrite (trim_start_blank _ H). reflexivity. Qed.

(** C7.  For a text that is empty or made of white space only, [getEmbedding]
    returns [null] and the world is as before: no call to the embedding
    provider, no access to the store. *)
Theorem getEmbedding_blank E text st :
  forallb is_js_space (of_string text) = true ->
  getEmbedding E text st = (Ok JNull, st)
  /\ trace (snd (getEmbedding E text st)) = trace st.
Proof.
  intros H. unfold getEmbedding. rewrite (trim_blank text H), orb_true_r.
  split; reflexivity.
Qed.

(** * Enumerating keys *)

Lemma live_keys_spec st key : In key (live_keys st) <-> live st key.
Proof.
  unfold live_keys, live. rewrite in_map_iff. split.
  - intros ([k [v expiry]] & Hk & Hin). cbn [fst] in Hk. subst k.
    apply filter_In in Hin as [Hin Hlive]. cbn [snd] in Hlive.
    apply list_elem_of_In, elem_of_map_to_list in Hin.
    exists v, expiry. split; [exact Hin | lia].
  - intros (v & expiry & Hkv & Hlive). exists (key, (v, expiry)). split; [reflexivity|].
    apply filter_In. split.
    + apply list_elem_of_In, elem_of_map_to_list. exact Hkv.
    + cbn [snd]. lia.
Qed.

Lemma NoDup_fst_filter {A B} (f : A * B -> bool) (l : list (A * B)) :
  NoDup (map fst l) -> NoDup (map fst (List.filter f l)).
Proof.
  induction l as [|x l IH]; cbn [map List.filter]; intros H; [constructor|].
  apply NoDup_cons in H as [Hx Hl]. destruct (f x); cbn [map]; [|auto].
  apply NoDup_cons. split; [|auto].
  intros Hin. apply Hx. apply list_elem_of_In, in_map_iff in Hin as (y & Hy & Hin).
  apply list_elem_of_In, in_map_iff. exists y. split; [exact Hy|].
  apply filter_In in Hin as [Hin _]. exact Hin.
Qed.

Lemma NoDup_list_filter {A} (f : A -> bool) (l : list A) :
  NoDup l -> NoDup (List.filter f l).
Proof.
  induction l as [|x l IH]; cbn [List.filter]; intros H; [constructor|].
  apply NoDup_cons in H as [Hx Hl]. destruct (f x); [|auto].
  apply NoDup_cons. split; [|auto].
  intros Hin. apply Hx. apply list_elem_of_In, filter_In in Hin as [Hin _].
  apply list_elem_of_In. exact Hin.
Qed.

Lemma live_keys_NoDup st : NoDup (live_keys st).
Proof.
  unfold live_keys. apply NoDup_fst_filter.
  exact (NoDup_fst_map_to_list (kv st)).
Qed.

Lemma prefix_includes p s : String.prefix p s = true -> includes p s = true.
Proof. intros H. destruct s; cbn [includes]; rewrite H; reflexivity. Qed.

Lemma not_includes_not_prefix p s : includes p s = false -> String.prefix p s = false.
Proof.
  intros H. destruct (String.prefix p s) eqn:Hp; [|reflexivity].
  rewrite (prefix_includes _ _ Hp) in H. discriminate H.
Qed.

(** The filter as the specification words it: by prefix. *)
Definition kept_by_prefix (key : string) : bool :=
  negb (String.prefix "embed:" key || String.prefix "retrieve:" key)
  && (5 <=? String.length key)%nat.

(** C8, as stated, fails: a live key that merely contains [embed:] is left
    out, although it has neither prefix and is long enough. *)
Lemma getAllKeys_drops_unprefixed_key :
  let st := holding "my-embed:1" "[]" in
  fst (getAllKeys st) = Ok []
  /\ live_keys st = ["my-embed:1"]
  /\ List.filter kept_by_prefix (live_keys st) = ["my-embed:1"].
Proof. vm_compute. repeat split; reflexivity. Qed.

(** C8, amended.  [getAllKeys] returns exactly the live keys that do not
    contain [embed:] or [retrieve:] anywhere and have at least 5 characters,
    each once; so every key returned has length at least 5 and neither
    prefix. *)
Theorem getAllKeys_spec st :
  exists keys,
    getAllKeys st = (Ok keys, log EvKeys st)
    /\ (forall key, In key keys <->
          live st key /\ includes "embed:" key = false
          /\ includes "retrieve:" key = false /\ (5 <= String.length key)%nat)
    /\ (forall key, In key keys ->
          (5 <= String.length key)%nat /\ String.prefix "embed:" key = false
          /\ String.prefix "retrieve:" key = false)
    /\ NoDup keys.
Proof.
  exists (List.filter kept_key (live_keys st)).
  assert (Hkept : forall key, kept_key key = true <->
            includes "embed:" key = false /\ includes "retrieve:" key = false
            /\ (5 <= String.length key)%nat).
  { intros key. unfold kept_key.
    rewrite andb_true_iff, negb_true_iff, orb_false_iff, Nat.leb_le. tauto. }
  assert (Hin : forall key, In key (List.filter kept_key (live_keys st)) <->
            live st key /\ includes "embed:" key = false
            /\ includes "retrieve:" key = false /\ (5 <= String.length key)%nat).
  { intros key. rewrite filter_In, live_keys_spec, Hkept. tauto. }
  split; [reflexivity|]. split; [exact Hin|].
  split; [|apply NoDup_list_filter, live_keys_NoDup].
  intros key Hk. apply Hin in Hk as (_ & He & Hr & Hlen).
  split; [exact Hlen|]. split; apply not_includes_not_prefix; assumption.
Qed.

(** * A reply without text *)

Lemma post_chat_query E sessionId query topK st :
  query <> "" ->
  post_chat E sessionId (JObj [("query", JStr query); ("topK", topK)]) st =
  match chat_turn E sessionId query topK st with
  | (Ok r, st') => (r, st')
  | (Throw e, st') => (ChatFailed e, st')
  end.
Proof.
  intros Hq. unfold post_chat. cbn [js_or truthy].
  change (own_prop (JObj [("query", JStr query); ("topK", topK)]) "query") with (JStr query).
  change (own_prop (JObj [("query", JStr query); ("topK", topK)]) "topK") with topK.
  cbn [truthy]. destruct (String.eqb_spec query "") as [|_]; [contradiction | reflexivity].
Qed.

(** C10.  When the generation provider answers without a transport error
    but its reply has no text candidate, [askModel] returns [null] and does
    not throw; the chat turn goes on, appends the turn with a [null] answer
    to the history that the append reads, stores it, and answers [200] with
    a [null] answer. *)
Theorem null_answer_is_appended E sessionId query topK st
    stored st1 passages st2 prompt reply reread l :
  getSession sessionId st = (Ok stored, st1) ->
  retrieveTopK E query (chat_k topK) st1 = (Ok passages, st2) ->
  buildPromptWithHistory (js_or stored (JArr [])) query passages = Ok prompt ->
  generate_post E (trace st2) prompt = Ok reply ->
  truthy (first_text reply) = false ->
  fst (getSession sessionId (log (EvGenerate prompt) st2)) = Ok reread ->
  js_or reread (JArr []) = JArr l ->
  0 < SESSION_TTL E ->
  let turn := JObj [("query", JStr query); ("answer", JNull)] in
  let run := post_chat E sessionId (JObj [("query", JStr query); ("topK", topK)]) st in
  query <> "" ->
  askModel E prompt st2 = (Ok JNull, log (EvGenerate prompt) st2)
  /\ fst run = ChatOk sessionId query JNull (JArr (l ++ [turn]))
  /\ kv (snd run) !! sessionId
     = Some (to_string (ser (JArr (l ++ [turn]))), now st2 + SESSION_TTL E)
  /\ lookup_live (snd run) sessionId = Some (to_string (ser (JArr (l ++ [turn])))).
Proof.
  intros H1 H2 H3 H4 H5 H6 H7 Httl turn run Hq.
  assert (Hask : askModel E prompt st2 = (Ok JNull, log (EvGenerate prompt) st2)).
  { rewrite askModel_eq, H4. unfold js_or. rewrite H5. reflexivity. }
  split; [exact Hask|].
  assert (Hrun : chat_turn E sessionId query topK st =
    (Ok (ChatOk sessionId query JNull (JArr (l ++ [turn]))),
     {| kv := <[sessionId := (to_string (ser (JArr (l ++ [turn]))),
                              now st2 + SESSION_TTL E)]> (kv st2);
        now := now st2;
        trace := EvSet sessionId (to_string (ser (JArr (l ++ [turn]))))
                   (SESSION_TTL E) :: EvGet sessionId :: EvGenerate prompt :: trace st2 |})).
  { unfold chat_turn.
    rewrite (await_step _ _ _ _ _ H1). fold (chat_k topK).
    rewrite (await_step _ _ _ _ _ H2). rewrite H3.
    erewrite await_step; [| reflexivity].
    rewrite (await_step _ _ _ _ _ Hask).
    erewrite await_step;
      [| apply (appendToSession_array E sessionId turn None _ reread l H6 H7 Httl)].
    reflexivity. }
  assert (Hpost : run =
    (ChatOk sessionId query JNull (JArr (l ++ [turn])),
     snd (chat_turn E sessionId query topK st))).
  { unfold run. rewrite (post_chat_query _ _ _ _ _ Hq), Hrun. reflexivity. }
  rewrite Hpost, Hrun. cbn [fst snd kv].
  split; [reflexivity|]. split; [apply lookup_insert_eq|].
  unfold lookup_live. cbn [kv now]. rewrite lookup_insert_eq.
  destruct (Z.ltb_spec (now st2) (now st2 + SESSION_TTL E)); [reflexivity | lia].
Qed.

(** * The theorems at concrete inputs *)

Definition no_text : Env :=
  {| SESSION_TTL := 1800; EMBED_MODEL := "jina-embeddings-v2-base-en";
     COLLECTION := "news_articles";
     uuid_v4 := fun _ => "00000000-0000-4000-8000-000000000000";
     embed_post := fun _ _ _ =>
       Ok (JObj [("data", JArr [JObj [("embedding", JArr [JNum 1; JNum 2])]])]);
     qdrant_search := fun _ _ _ _ =>
       Ok (JArr [JObj [("payload", passage_value (mkPassage "T" "C" None))]]);
     generate_post := fun _ _ => Ok (JObj [("candidates", JArr [])]) |}.

Lemma chat_failure_keeps_session_witness :
  untouched "sess1" empty_state
    (snd (chat_turn search_down "sess1" "hi" JUndefined empty_state)).
Proof.
  refine (proj1 (chat_failure_keeps_session search_down "sess1" "hi" JUndefined
                   empty_state _ _)
            (RequestError "index unavailable")
            (snd (chat_turn search_down "sess1" "hi" JUndefined empty_state)) _).
  - discriminate.
  - discriminate.
  - vm_compute. reflexivity.
Defined.

Lemma cache_roundtrip_witness :
  fst (cacheGet "retrieve:1:k5"
         (advance 299
            (snd (cacheSet "retrieve:1:k5"
                    (JArr [passage_value (mkPassage "T" "C" None); JNum (-7); JStr "x"])
                    (Some 300) empty_state))))
  = Ok (JArr [passage_value (mkPassage "T" "C" None); JNum (-7); JStr "x"]).
Proof.
  apply cache_roundtrip; [reflexivity | reflexivity | cbn [ttl_or]; lia].
Defined.

Lemma create_then_append_in_order_witness :
  exists id st1 st2,
    createSession search_down None None empty_state = (Ok id, st1)
    /\ fst (getSession id st1) = Ok (JArr [])
    /\ append_all search_down id [(turn_value (mkTurn "hi" "hello"), None)] st1
       = (Ok [JArr [turn_value (mkTurn "hi" "hello")]], st2)
    /\ fst (getSession id st2) = Ok (JArr [turn_value (mkTurn "hi" "hello")]).
Proof.
  apply (create_then_append_in_order search_down None None
           [(turn_value (mkTurn "hi" "hello"), None)] empty_state).
  - reflexivity.
  - repeat constructor.
  - reflexivity.
Defined.

Lemma retrieve_keys_distinct_witness :
  retrieve_key "hi" (Int 3) <> retrieve_key "hi" (Int 5)
  /\ retrieve_key "hi" (Int 3) = "retrieve:" +:+ simpleHash "hi" +:+ ":k" +:+ num_to_string (Int 3)
  /\ (exists later, trace (snd (retrieveTopK no_text "hi" (Int 3) empty_state))
                    = later ++ EvGet (retrieve_key "hi" (Int 3)) :: trace empty_state)
  /\ untouched (retrieve_key "hi" (Int 5)) empty_state
       (snd (retrieveTopK no_text "hi" (Int 3) empty_state)).
Proof.
  apply (retrieve_keys_distinct no_text "hi" (Int 3) (Int 5) empty_state). discriminate.
Defined.

Lemma getEmbedding_blank_witness :
  getEmbedding no_text "   " empty_state = (Ok JNull, empty_state)
  /\ trace (snd (getEmbedding no_text "   " empty_state)) = trace empty_state.
Proof. apply getEmbedding_blank. reflexivity. Defined.

Lemma createSession_overwrites_witness :
  let st := holding "sess1" "[1,2,3]" in
  let st1 := snd (createSession search_down (Some "sess1") None st) in
  fst (createSession search_down (Some "sess1") None st) = Ok "sess1"
  /\ kv st1 !! "sess1" = Some ("[]", now st + ttl_or (SESSION_TTL search_down) None)
  /\ (forall key, key <> "sess1" -> kv st1 !! key = kv st !! key)
  /\ trace st1 = EvSet "sess1" "[]" (ttl_or (SESSION_TTL search_down) None) :: trace st
  /\ fst (getSession "sess1" st1) = Ok (JArr []).
Proof.
  apply (createSession_overwrites search_down "sess1" None (holding "sess1" "[1,2,3]")).
  - discriminate.
  - reflexivity.
Defined.

Definition after_read : State := snd (getSession "sess1" empty_state).
Definition after_retrieval : State := snd (retrieveTopK no_text "hi" (Int 5) after_read).
Definition prompt_hi : string := prompt_layout [] "hi" [mkPassage "T" "C" None].

Lemma null_answer_is_appended_witness :
  let turn := JObj [("query", JStr "hi"); ("answer", JNull)] in
  let run := post_chat no_text "sess1" (JObj [("query", JStr "hi"); ("topK", JUndefined)])
               empty_state in
  askModel no_text prompt_hi after_retrieval
    = (Ok JNull, log (EvGenerate prompt_hi) after_retrieval)
  /\ fst run = ChatOk "sess1" "hi" JNull (JArr ([] ++ [turn]))
  /\ kv (snd run) !! "sess1"
     = Some (to_string (ser (JArr ([] ++ [turn]))), now after_retrieval + SESSION_TTL no_text)
  /\ lookup_live (snd run) "sess1" = Some (to_string (ser (JArr ([] ++ [turn])))).
Proof.
  apply (null_answer_is_appended no_text "sess1" "hi" JUndefined empty_state
           JNull after_read
           (JArr [passage_value (mkPassage "T" "C" None)]) after_retrieval
           prompt_hi (JObj [("candidates", JArr [])]) JNull []).
  - reflexivity.
  - vm_compute. reflexivity.
  - vm_compute. reflexivity.
  - reflexivity.
  - reflexivity.
  - vm_compute. reflexivity.
  - reflexivity.
  - reflexivity.
  - discriminate.
Defined.

(** * More of the session manager *)

Lemma keeps_all_eq st st' :
  (forall key, untouched key st st') -> kv st' = kv st /\ now st' = now st.
Proof.
  intros H. split; [apply map_eq; intros key; apply (H key) | apply (H "")].
Qed.

Lemma lookup_live_advance_insert st key v ttl elapsed tr :
  0 <= elapsed < ttl ->
  lookup_live
    (advance elapsed
       {| kv := <[key := (v, now st + ttl)]> (kv st); now := now st; trace := tr |}) key
  = Some v.
Proof.
  intros H. unfold lookup_live, advance. cbn [kv now]. rewrite lookup_insert_eq.
  destruct (Z.ltb_spec (now st + elapsed) (now st + ttl)); [reflexivity | lia].
Qed.

Lemma saveSession_eq E sessionId history ttl st :
  json_safe history = true -> 0 < ttl_or (SESSION_TTL E) ttl ->
  saveSession E sessionId history ttl st =
    (Ok history,
     {| kv := <[sessionId := (to_string (ser history), now st + ttl_or (SESSION_TTL E) ttl)]>
                (kv st);
        now := now st;
        trace := EvSet sessionId (to_string (ser history)) (ttl_or (SESSION_TTL E) ttl)
                 :: trace st |}).
Proof.
  intros Hsafe Httl. unfold saveSession.
  assert (Hs : JSON_stringify history = Some (to_string (ser history)))
    by (destruct history; try reflexivity; discriminate Hsafe).
  rewrite Hs. erewrite await_step; [| apply lookup_live_set; exact Httl]. reflexivity.
Qed.

(** X1.  [saveSession] replaces whatever is stored under the id: it returns
    the history it was given, and until the expiry [getSession] returns that
    history; the entries under other keys stay as they were. *)
Theorem saveSession_then_getSession E sessionId history ttl elapsed st :
  json_safe history = true ->
  0 <= elapsed < ttl_or (SESSION_TTL E) ttl ->
  let run := saveSession E sessionId history ttl st in
  fst run = Ok history
  /\ fst (getSession sessionId (advance elapsed (snd run))) = Ok history
  /\ (forall key, key <> sessionId -> kv (snd run) !! key = kv st !! key).
Proof.
  intros Hsafe Httl run. unfold run. rewrite (saveSession_eq E _ _ _ _ Hsafe) by lia.
  cbn [fst snd]. split; [reflexivity|]. split.
  - rewrite getSession_eq. cbn [fst].
    rewrite (lookup_live_advance_insert st _ _ _ _ _ Httl).
    rewrite (ser_nonempty _ Hsafe). apply JSON_parse_ser. exact Hsafe.
  - intros key Hkey. cbn [kv]. apply lookup_insert_ne. congruence.
Qed.

(** X2.  [clearSession] returns the empty sequence whatever the store held
    under the id, valid history or not; until the expiry [getSession]
    returns the empty sequence, so the id stays valid; other keys are not
    touched and nothing is read. *)
Theorem clearSession_resets E sessionId ttl elapsed st :
  0 <= elapsed < ttl_or (SESSION_TTL E) ttl ->
  let run := clearSession E sessionId ttl st in
  fst run = Ok (JArr [])
  /\ fst (getSession sessionId (advance elapsed (snd run))) = Ok (JArr [])
  /\ (forall key, key <> sessionId -> kv (snd run) !! key = kv st !! key)
  /\ trace (snd run) = EvSet sessionId "[]" (ttl_or (SESSION_TTL E) ttl) :: trace st.
Proof.
  intros Httl run. unfold run, clearSession.
  change (JSON_stringify (JArr [])) with (Some "[]").
  erewrite await_step; [| apply lookup_live_set; lia].
  cbn [ret fst snd]. split; [reflexivity|]. split.
  - rewrite getSession_eq. cbn [fst].
    rewrite (lookup_live_advance_insert st _ _ _ _ _ Httl). reflexivity.
  - split; [|reflexivity]. intros key Hkey. cbn [kv]. apply lookup_insert_ne. congruence.
Qed.

(** X3.  [appendToSession] on an id that reads as absent, or whose stored
    value is falsy ([null], [0], [false], the empty string), starts a new
    history: it returns the one-turn history, and [getSession] returns it
    until the expiry. *)
Theorem appendToSession_starts_history E sessionId entry ttl elapsed stored st :
  fst (getSession sessionId st) = Ok stored -> truthy stored = false ->
  json_safe entry = true ->
  0 <= elapsed < ttl_or (SESSION_TTL E) ttl ->
  let run := appendToSession E sessionId entry ttl st in
  fst run = Ok (JArr [entry])
  /\ fst (getSession sessionId (advance elapsed (snd run))) = Ok (JArr [entry]).
Proof.
  intros Hget Hfalsy Hsafe Httl run. unfold run.
  assert (Hl : js_or stored (JArr []) = JArr []) by (unfold js_or; rewrite Hfalsy; reflexivity).
  rewrite (appendToSession_array E sessionId entry ttl st stored [] Hget Hl) by lia.
  cbn [fst snd app]. split; [reflexivity|].
  rewrite getSession_eq. cbn [fst].
  rewrite (lookup_live_advance_insert (log (EvGet sessionId) st) _ _ _ _ _ Httl).
  assert (Hs : json_safe (JArr [entry]) = true) by (cbn [json_safe forallb]; rewrite Hsafe; reflexivity).
  rewrite (ser_nonempty _ Hs). apply JSON_parse_ser. exact Hs.
Qed.

(** X4.  An [appendToSession] that throws has changed nothing: every entry
    of the store, with its expiry, is as before. *)
Theorem appendToSession_failure_changes_nothing E sessionId entry ttl st e st' :
  appendToSession E sessionId entry ttl st = (Throw e, st') ->
  kv st' = kv st /\ now st' = now st.
Proof.
  intros H. apply keeps_all_eq. intros key.
  exact (clean_appendToSession E key sessionId entry ttl st e st' H).
Qed.

Definition is_array (v : JSValue) : bool :=
  match v with
  | JArr _ => true
  | _ => false
  end.

(** X5.  When the value stored under the id is truthy and not an array (a
    number, a string, an object, [true]), [appendToSession] throws a
    [TypeError]: the value has no [push]. *)
Theorem appendToSession_non_array E sessionId entry ttl stored st :
  fst (getSession sessionId st) = Ok stored ->
  truthy stored = true -> is_array stored = false ->
  appendToSession E sessionId entry ttl st = (Throw TypeError, log (EvGet sessionId) st).
Proof.
  intros Hget Htruthy Harr. unfold appendToSession.
  rewrite getSession_eq in Hget. cbn [fst] in Hget.
  erewrite await_step; [| rewrite getSession_eq, Hget; reflexivity].
  unfold js_or. rewrite Htruthy.
  destruct stored; try discriminate Harr; reflexivity.
Qed.

(** X6.  Reading does not postpone the expiry: once the expiry instant of
    an entry has passed it reads as absent, however many seconds before
    that it was read. *)
Theorem reads_do_not_extend_expiry sessionId value expiry wait1 wait2 st :
  kv st !! sessionId = Some (value, expiry) ->
  0 <= wait1 -> 0 <= wait2 -> expiry <= now st + wait1 + wait2 ->
  let st1 := snd (getSession sessionId (advance wait1 st)) in
  kv st1 !! sessionId = Some (value, expiry)
  /\ fst (getSession sessionId (advance wait2 st1)) = Ok JNull.
Proof.
  intros Hkv H1 H2 Hexp st1. unfold st1. rewrite !getSession_eq. cbn [fst snd].
  split; [exact Hkv|].
  unfold lookup_live, advance, log. cbn [kv now]. rewrite Hkv.
  destruct (Z.ltb_spec (now st + wait1 + wait2) expiry); [lia | reflexivity].
Qed.

(** X7.  Every [appendToSession] restarts the expiry: after an append with
    a TTL the history reads back for that many seconds from the append,
    whatever expiry the entry had before. *)
Theorem appendToSession_refreshes_expiry E sessionId history entry ttl elapsed st :
  holds st sessionId history -> forallb json_safe history = true ->
  json_safe entry = true ->
  0 <= elapsed < ttl_or (SESSION_TTL E) ttl ->
  let st1 := snd (appendToSession E sessionId entry ttl st) in
  (exists value,
     kv st1 !! sessionId = Some (value, now st + ttl_or (SESSION_TTL E) ttl))
  /\ fst (getSession sessionId (advance elapsed st1)) = Ok (JArr (history ++ [entry])).
Proof.
  intros Hh Hsafe He Httl st1. unfold st1.
  assert (Hget : fst (getSession sessionId st) = Ok (JArr history))
    by (rewrite (getSession_holds _ _ _ Hh Hsafe); reflexivity).
  rewrite (appendToSession_array E sessionId entry ttl st (JArr history) history Hget eq_refl)
    by lia.
  cbn [snd]. split; [eexists; cbn [kv]; apply lookup_insert_eq|].
  rewrite getSession_eq. cbn [fst].
  rewrite (lookup_live_advance_insert (log (EvGet sessionId) st) _ _ _ _ _ Httl).
  assert (Hs : json_safe (JArr (history ++ [entry])) = true).
  { cbn [json_safe]. rewrite forallb_app, Hsafe. cbn [forallb]. rewrite He. reflexivity. }
  rewrite (ser_nonempty _ Hs). apply JSON_parse_ser. exact Hs.
Qed.

Lemma keeps_createSession_given E key id ttl :
  id <> "" -> key <> id -> keeps key (createSession E (Some id) ttl).
Proof.
  intros Hid Hne st. unfold createSession.
  destruct (String.eqb_spec id "") as [|_]; [contradiction|].
  erewrite await_step; [| reflexivity].
  apply (keeps_await key); [apply keeps_client_set; exact Hne | intros; apply keeps_ret].
Qed.

(** X8.  Sessions under different ids do not interfere: appending to,
    saving, clearing or creating the session [id1] leaves the entry of any
    other key, with its expiry, as it was. *)
Theorem sessions_are_independent E id1 id2 entry history ttl st :
  id1 <> id2 ->
  untouched id2 st (snd (appendToSession E id1 entry ttl st))
  /\ untouched id2 st (snd (saveSession E id1 history ttl st))
  /\ untouched id2 st (snd (clearSession E id1 ttl st))
  /\ (id1 <> "" -> untouched id2 st (snd (createSession E (Some id1) ttl st))).
Proof.
  intros Hne. assert (Hne' : id2 <> id1) by congruence.
  split; [|split; [|split]].
  - apply (keeps_await id2); [apply keeps_getSession|]. intros stored.
    apply keeps_await; [apply keeps_lift|]. intros h.
    apply keeps_await; [apply keeps_client_set; exact Hne' | intros; apply keeps_ret].
  - apply (keeps_await id2); [apply keeps_client_set; exact Hne' | intros; apply keeps_ret].
  - apply (keeps_await id2); [apply keeps_client_set; exact Hne' | intros; apply keeps_ret].
  - intros Hid. apply keeps_createSession_given; assumption.
Qed.

(** * More of the key enumeration *)

Lemma getAllKeys_eq st : getAllKeys st = (Ok (List.filter kept_key (live_keys st)), log EvKeys st).
Proof. reflexivity. Qed.

(** X9.  A session created under an id of at least 5 characters that
    contains neither [embed:] nor [retrieve:] is listed by [getAllKeys]
    until it expires. *)
Theorem created_session_is_listed E id ttl elapsed st :
  kept_key id = true -> 0 <= elapsed < ttl_or (SESSION_TTL E) ttl ->
  exists keys,
    fst (getAllKeys (advance elapsed (snd (createSession E (Some id) ttl st)))) = Ok keys
    /\ In id keys.
Proof.
  intros Hkept Httl.
  assert (Hid : id <> "") by (intros ->; discriminate Hkept).
  rewrite (createSession_given E id ttl st Hid) by lia. cbn [snd].
  rewrite getAllKeys_eq. cbn [fst]. eexists; split; [reflexivity|].
  apply filter_In. split; [|exact Hkept].
  apply live_keys_spec. unfold live, advance. cbn [kv now].
  eexists _, _. split; [apply lookup_insert_eq | lia].
Qed.

(** [getAllKeys] never lists a cache key: neither the key under which
    [getEmbedding] caches a vector nor the key under which [retrieveTopK]
    caches its payloads, in any state of the store. *)
Lemma cache_keys_are_never_listed text query k st :
  exists keys,
    fst (getAllKeys st) = Ok keys
    /\ ~ In (embed_key text) keys /\ ~ In (retrieve_key query k) keys.
Proof.
  rewrite getAllKeys_eq. cbn [fst]. eexists; split; [reflexivity|].
  assert (Hdrop : forall p key, p = "embed:" \/ p = "retrieve:" ->
            String.prefix p key = true -> ~ In key (List.filter kept_key (live_keys st))).
  { intros p key Hp Hpre Hin. apply filter_In in Hin as [_ Hk].
    unfold kept_key in Hk. apply andb_prop in Hk as [Hk _].
    apply negb_true_iff, orb_false_iff in Hk as [H1 H2].
    apply prefix_includes in Hpre. destruct Hp as [-> | ->]; congruence. }
  split.
  - apply (Hdrop "embed:"); [auto | apply embed_key_prefix].
  - apply (Hdrop "retrieve:"); [auto | apply retrieve_key_prefix].
Qed.

(** * The fingerprint *)

(** FNV-1a on 32 bits, with unsigned arithmetic modulo 2^32. *)
Definition fnv1a_step (h : Z) (c : ascii) : Z :=
  (Z.lxor h (Z.of_N (code c)) * 16777619) mod 2 ^ 32.

Definition fnv1a (s : string) : Z := fold_left fnv1a_step (of_string s) 2166136261.

Definition is_lower_hex (c : ascii) : bool :=
  is_digit c || ((97 <=? code c) && (code c <=? 102))%N.

Lemma to_uint32_to_int32 z : to_uint32 (to_int32 z) = to_uint32 z.
Proof.
  unfold to_uint32, to_int32. cbv zeta.
  destruct (z mod 2 ^ 32 <? 2 ^ 31).
  - apply Z.mod_mod. lia.
  - rewrite <- (Z.mod_add _ 1) by lia.
    replace (z mod 2 ^ 32 - 2 ^ 32 + 1 * 2 ^ 32) with (z mod 2 ^ 32) by lia.
    apply Z.mod_mod. lia.
Qed.

Lemma lxor_mod_pow2 x y n :
  0 <= n -> Z.lxor x y mod 2 ^ n = Z.lxor (x mod 2 ^ n) (y mod 2 ^ n).
Proof.
  intros Hn. rewrite <- !Z.land_ones by exact Hn.
  apply Z.bits_inj'. intros i Hi.
  rewrite !Z.land_spec, !Z.lxor_spec, !Z.land_spec.
  destruct (Z.testbit x i), (Z.testbit y i), (Z.testbit (Z.ones n) i); reflexivity.
Qed.

Lemma code_range c : 0 <= Z.of_N (code c) < 256.
Proof. pose proof (N_ascii_bounded c). unfold code. lia. Qed.

Lemma hash_step_unsigned h c :
  to_uint32 (imul (xor32 h (Z.of_N (code c))) 16777619) = fnv1a_step (to_uint32 h) c.
Proof.
  unfold imul, xor32, fnv1a_step. rewrite to_uint32_to_int32. unfold to_uint32 at 1.
  rewrite Z.mul_mod by lia.
  fold (to_uint32 (to_int32 (to_int32 (Z.lxor (to_int32 h) (to_int32 (Z.of_N (code c))))))).
  fold (to_uint32 (to_int32 16777619)).
  rewrite !to_uint32_to_int32. unfold to_uint32.
  rewrite lxor_mod_pow2 by lia.
  fold (to_uint32 (to_int32 h)). fold (to_uint32 (to_int32 (Z.of_N (code c)))).
  rewrite !to_uint32_to_int32. unfold to_uint32.
  pose proof (code_range c).
  rewrite (Z.mod_small (Z.of_N (code c))) by lia.
  rewrite (Z.mod_small 16777619) by lia.
  reflexivity.
Qed.

Lemma hash_fold_unsigned cs : forall h,
  to_uint32 (fold_left (fun h c => imul (xor32 h (Z.of_N (code c))) 16777619) cs h)
  = fold_left fnv1a_step cs (to_uint32 h).
Proof.
  induction cs as [|c cs IH]; intros h; cbn [fold_left]; [reflexivity|].
  rewrite IH, hash_step_unsigned. reflexivity.
Qed.

Lemma fnv1a_range s : 0 <= fnv1a s < 2 ^ 32.
Proof.
  assert (H : forall cs h, 0 <= h < 2 ^ 32 -> 0 <= fold_left fnv1a_step cs h < 2 ^ 32).
  { induction cs as [|c cs IH]; intros h Hh; cbn [fold_left]; [exact Hh|].
    apply IH. unfold fnv1a_step. apply Z.mod_pos_bound. lia. }
  unfold fnv1a. apply H. lia.
Qed.

Definition hex_step (a : N) (c : ascii) : N :=
  (a * 16 + match hex_val c with Some d => d | None => 0 end)%N.

Definition hex_value (ds : chars) : N := fold_left hex_step ds 0%N.

Lemma digit_char_hex d :
  (d < 16)%N -> is_lower_hex (digit_char d) = true /\ hex_val (digit_char d) = Some d.
Proof.
  intros Hd. unfold is_lower_hex, is_digit, hex_val, digit_char, code. cbv zeta.
  destruct (N.ltb_spec d 10) as [Hlt|Hge]; rewrite N_ascii_embedding by lia.
  - assert (H1 : (48 <=? 48 + d)%N = true) by (apply N.leb_le; lia).
    assert (H2 : (48 + d <=? 57)%N = true) by (apply N.leb_le; lia).
    rewrite H1, H2. cbn [andb orb]. split; [reflexivity | f_equal; lia].
  - assert (H1 : (48 <=? 87 + d)%N = true) by (apply N.leb_le; lia).
    assert (H2 : (87 + d <=? 57)%N = false) by (apply N.leb_gt; lia).
    assert (H3 : (97 <=? 87 + d)%N = true) by (apply N.leb_le; lia).
    assert (H4 : (87 + d <=? 102)%N = true) by (apply N.leb_le; lia).
    rewrite H1, H2, H3, H4. cbn [andb orb]. split; [reflexivity | f_equal; lia].
Qed.

(** The digits of [n] in base sixteen: lower-case hexadecimal digits, no
    leading zero unless [n] is zero, denoting [n]. *)
Definition hex_of (n : N) (ds : chars) : Prop :=
  Forall (fun c => is_lower_hex c = true) ds /\
  hex_value ds = n /\
  match ds with
  | [] => False
  | c :: r => c = "0"%char -> n = 0%N /\ r = []
  end.

Lemma radix_digits_hex fuel : forall n,
  (n < 2 ^ N.of_nat fuel)%N -> hex_of n (radix_digits 16 (S fuel) n []).
Proof.
  induction fuel as [|fuel IH]; intros n Hn.
  - assert (n = 0%N) as -> by (simpl in Hn; lia).
    split; [repeat constructor | split; [reflexivity | intros _; split; reflexivity]].
  - rewrite radix_digits_S.
    assert (Hmod : (n mod 16 < 16)%N) by (apply N.mod_lt; lia).
    destruct (digit_char_hex _ Hmod) as [Hdig Hval].
    destruct (N.eqb_spec (n / 16) 0) as [Hq|Hq].
    + assert (Hsmall : (n mod 16 = n)%N) by (pose proof (N.div_mod n 16); lia).
      split; [constructor; [assumption | constructor]|]. split.
      * unfold hex_value; simpl. unfold hex_step. rewrite Hval. lia.
      * intros Hc. rewrite Hc in Hval.
        assert (E0 : hex_val "0" = Some 0%N) by reflexivity.
        rewrite E0 in Hval. injection Hval as Hz. split; [lia | reflexivity].
    + rewrite radix_digits_acc.
      assert (Hlt : (n / 16 < 2 ^ N.of_nat fuel)%N).
      { rewrite Nat2N.inj_succ, N.pow_succ_r' in Hn.
        apply N.Div0.div_lt_upper_bound. lia. }
      destruct (IH _ Hlt) as (Hall & Hv & Hhead).
      remember (radix_digits 16 (S fuel) (n / 16) []) as ds eqn:Eds. clear Eds IH.
      split; [apply Forall_app; split; [assumption | constructor; [assumption | constructor]]|].
      split.
      * unfold hex_value in *. rewrite fold_left_app. simpl.
        rewrite Hv. unfold hex_step. rewrite Hval.
        pose proof (N.div_mod n 16). lia.
      * destruct ds as [|c r]; [contradiction|].
        simpl. intros Hc. destruct (Hhead Hc) as [Hz _]. contradiction.
Qed.

Lemma N_to_hex_spec n : hex_of n (N_to_radix 16 n).
Proof.
  unfold N_to_radix. apply radix_digits_hex. rewrite N2Nat.id. apply N.size_gt.
Qed.

Lemma N_to_hex_inj n m : N_to_radix 16 n = N_to_radix 16 m -> n = m.
Proof.
  intros E. destruct (N_to_hex_spec n) as (_ & Hn & _).
  destruct (N_to_hex_spec m) as (_ & Hm & _).
  rewrite E in Hn. congruence.
Qed.

Lemma radix_digits_hex_length fuel : forall n k,
  (n < 16 ^ N.of_nat (S k))%N -> (length (radix_digits 16 fuel n []) <= S k)%nat.
Proof.
  induction fuel as [|fuel IH]; intros n k Hn; [simpl; lia|].
  rewrite radix_digits_S. destruct (N.eqb_spec (n / 16) 0) as [Hq|Hq]; [simpl; lia|].
  rewrite radix_digits_acc, length_app. cbn [length].
  destruct k as [|k].
  { exfalso. apply Hq. apply N.div_small. simpl in Hn. lia. }
  assert (Hlt : (n / 16 < 16 ^ N.of_nat (S k))%N).
  { rewrite (Nat2N.inj_succ (S k)), N.pow_succ_r' in Hn.
    apply N.Div0.div_lt_upper_bound. lia. }
  specialize (IH _ _ Hlt). lia.
Qed.

Lemma simpleHash_unsigned s :
  simpleHash s = to_string (N_to_radix 16 (Z.to_N (fnv1a s))).
Proof. unfold simpleHash. cbv zeta. rewrite hash_fold_unsigned. reflexivity. Qed.

(** X11.  [simpleHash] is FNV-1a on 32 bits: the signed 32-bit arithmetic
    of [^] and [Math.imul] yields, after [>>> 0], the hash that unsigned
    arithmetic modulo 2^32 defines, written in base sixteen. *)
Theorem simpleHash_is_fnv1a s :
  simpleHash s = to_string (N_to_radix 16 (Z.to_N (fnv1a s)))
  /\ 0 <= fnv1a s < 2 ^ 32.
Proof. split; [apply simpleHash_unsigned | apply fnv1a_range]. Qed.

Lemma simpleHash_digits s :
  Forall (fun c => is_lower_hex c = true) (of_string (simpleHash s)).
Proof.
  rewrite simpleHash_unsigned, of_to_string.
  destruct (N_to_hex_spec (Z.to_N (fnv1a s))) as (Hall & _ & _). exact Hall.
Qed.

(** X12.  The fingerprint is a text of one to eight lower-case hexadecimal
    digits, without a leading zero unless it is the single digit zero. *)
Theorem simpleHash_shape s :
  let digits := of_string (simpleHash s) in
  (1 <= length digits <= 8)%nat
  /\ Forall (fun c => is_lower_hex c = true) digits
  /\ (forall r, digits = "0"%char :: r -> r = []).
Proof.
  cbv zeta. pose proof (fnv1a_range s) as Hrange.
  rewrite simpleHash_unsigned, of_to_string.
  destruct (N_to_hex_spec (Z.to_N (fnv1a s))) as (Hall & _ & Hhead).
  split; [|split; [exact Hall|]].
  - split.
    + destruct (N_to_radix 16 (Z.to_N (fnv1a s))); [contradiction | simpl; lia].
    + apply (radix_digits_hex_length _ _ 7).
      change (16 ^ N.of_nat 8)%N with (Z.to_N (2 ^ 32)). lia.
  - intros r E. rewrite E in Hhead. destruct (Hhead eq_refl) as [_ ->]. reflexivity.
Qed.

Lemma of_string_append a b : of_string (a +:+ b) = of_string a ++ of_string b.
Proof. induction a as [|c a IH]; simpl; [reflexivity | rewrite <- IH; reflexivity]. Qed.

Lemma of_string_inj a b : of_string a = of_string b -> a = b.
Proof. intros H. rewrite <- (to_of_string a), <- (to_of_string b), H. reflexivity. Qed.

Lemma split_at_mark (P : ascii -> bool) (mark : ascii) h1 : forall h2 r1 r2,
  P mark = false ->
  Forall (fun c => P c = true) h1 -> Forall (fun c => P c = true) h2 ->
  h1 ++ mark :: r1 = h2 ++ mark :: r2 -> h1 = h2 /\ r1 = r2.
Proof.
  induction h1 as [|c h1 IH]; intros h2 r1 r2 Hm H1 H2 E.
  - destruct h2 as [|d h2]; [injection E as <-; split; reflexivity|].
    injection E as <- _. inversion H2 as [|? ? Hd _]. congruence.
  - destruct h2 as [|d h2].
    + injection E as -> _. inversion H1 as [|? ? Hc _]. congruence.
    + injection E as <- E. inversion H1; inversion H2; subst.
      destruct (IH h2 r1 r2 Hm) as [-> ->]; auto.
Qed.

Lemma simpleHash_eq_iff s1 s2 : simpleHash s1 = simpleHash s2 <-> fnv1a s1 = fnv1a s2.
Proof.
  pose proof (fnv1a_range s1) as H1. pose proof (fnv1a_range s2) as H2.
  rewrite !simpleHash_unsigned.
  split; [|intros ->; reflexivity].
  intros H. apply to_string_inj, N_to_hex_inj in H. lia.
Qed.

(** X13.  Cache keys are addressed by fingerprint: two texts share the
    embedding key exactly when their FNV-1a hashes are equal, and two
    retrievals share the retrieval key exactly when the hashes of the
    queries are equal and the result counts are the same number. *)
Theorem cache_keys_follow_fingerprint text1 text2 k1 k2 :
  (embed_key text1 = embed_key text2 <-> fnv1a text1 = fnv1a text2)
  /\ (retrieve_key text1 k1 = retrieve_key text2 k2
      <-> fnv1a text1 = fnv1a text2 /\ k1 = k2).
Proof.
  split.
  - rewrite <- simpleHash_eq_iff. unfold embed_key. split.
    + apply append_inj_l.
    + intros ->. reflexivity.
  - rewrite <- simpleHash_eq_iff. unfold retrieve_key. split.
    + intros H. apply append_inj_l in H. apply (f_equal of_string) in H.
      rewrite !of_string_append in H.
      change (of_string ":k") with [":"%char; "k"%char] in H. cbn [app] in H.
      pose proof (simpleHash_digits text1) as Hh1.
      pose proof (simpleHash_digits text2) as Hh2.
      apply (split_at_mark is_lower_hex) in H as [Hh Hn]; [| reflexivity | assumption..].
      split; [apply of_string_inj; exact Hh|].
      injection Hn as Hn. apply of_string_inj in Hn. apply num_to_string_inj. exact Hn.
    + intros [-> ->]. reflexivity.
Qed.

(** * More of the embedding resolver *)

Definition blank (text : string) : bool :=
  String.eqb text "" || String.eqb (trim text) "".

Definition extract_embedding (body : JSValue) : JSValue :=
  opt_prop (opt_first (opt_prop body "data")) "embedding".

Definition stored_text (v : JSValue) : string :=
  match v with
  | JStr s => s
  | _ => to_string (ser v)
  end.

Lemma getEmbedding_hit E text cached st :
  blank text = false ->
  fst (getSession (embed_key text) st) = Ok cached -> truthy cached = true ->
  getEmbedding E text st = (Ok cached, log (EvGet (embed_key text)) st).
Proof.
  unfold blank. intros Hb Hget Ht. unfold getEmbedding. rewrite Hb.
  rewrite getSession_eq in Hget. cbn [fst] in Hget.
  erewrite await_step; [| rewrite cacheGet_eq, getSession_eq, Hget; reflexivity].
  rewrite Ht. reflexivity.
Qed.

Lemma getEmbedding_miss E text cached st :
  blank text = false ->
  fst (getSession (embed_key text) st) = Ok cached -> truthy cached = false ->
  getEmbedding E text st =
  let st1 := log (EvEmbed (EMBED_MODEL E) text) (log (EvGet (embed_key text)) st) in
  match embed_post E (EvGet (embed_key text) :: trace st) (EMBED_MODEL E) text with
  | Throw e => (Throw e, st1)
  | Ok body =>
      if truthy (extract_embedding body)
      then (Ok (extract_embedding body),
            {| kv := <[embed_key text :=
                         (stored_text (extract_embedding body), now st + 86400)]> (kv st);
               now := now st;
               trace := EvSet (embed_key text) (stored_text (extract_embedding body)) 86400
                        :: trace st1 |})
      else (Throw NoEmbedding, st1)
  end.
Proof.
  unfold blank. intros Hb Hget Ht. unfold getEmbedding. rewrite Hb.
  rewrite getSession_eq in Hget. cbn [fst] in Hget.
  erewrite await_step; [| rewrite cacheGet_eq, getSession_eq, Hget; reflexivity].
  rewrite Ht. cbv zeta. unfold await at 1. cbn [trace log].
  destruct (embed_post E (EvGet (embed_key text) :: trace st) (EMBED_MODEL E) text)
    as [body|e]; [|reflexivity].
  fold (extract_embedding body).
  destruct (truthy (extract_embedding body)) eqn:Hemb; cbn [negb]; [|reflexivity].
  unfold cacheSet.
  assert (Hs : match extract_embedding body with
               | JStr s => Some s
               | _ => JSON_stringify (extract_embedding body)
               end = Some (stored_text (extract_embedding body))).
  { destruct (extract_embedding body); try reflexivity. discriminate Hemb. }
  rewrite Hs. erewrite await_step; [| apply lookup_live_set; reflexivity].
  reflexivity.
Qed.

Definition embed_calls (tr : list Event) : nat :=
  length (List.filter (fun e => match e with EvEmbed _ _ => true | _ => false end) tr).

(** X14.  A text that is not blank and has no live cache entry costs one
    call to the embedding provider; the vector is cached for 24 hours, and
    within those a second [getEmbedding] of the same text returns the same
    vector with a single read of the store and no call to the provider. *)
Theorem getEmbedding_caches_and_reuses E text body elapsed st :
  blank text = false ->
  lookup_live st (embed_key text) = None ->
  embed_post E (EvGet (embed_key text) :: trace st) (EMBED_MODEL E) text = Ok body ->
  truthy (extract_embedding body) = true ->
  json_safe (extract_embedding body) = true ->
  is_string (extract_embedding body) = false ->
  0 <= elapsed < 86400 ->
  let first := getEmbedding E text st in
  let later := advance elapsed (snd first) in
  fst first = Ok (extract_embedding body)
  /\ embed_calls (trace (snd first)) = S (embed_calls (trace st))
  /\ getEmbedding E text later
     = (Ok (extract_embedding body), log (EvGet (embed_key text)) later).
Proof.
  intros Hb Hmiss Hpost Ht Hsafe Hstr Hel first later. unfold later, first.
  assert (Hget : fst (getSession (embed_key text) st) = Ok JNull)
    by (rewrite getSession_eq; cbn [fst]; rewrite Hmiss; reflexivity).
  rewrite (getEmbedding_miss E text JNull st Hb Hget eq_refl). cbv zeta.
  rewrite Hpost, Ht. cbn [fst snd]. split; [reflexivity|]. split; [reflexivity|].
  apply getEmbedding_hit; [exact Hb | | exact Ht].
  rewrite getSession_eq. cbn [fst].
  rewrite (lookup_live_advance_insert st _ _ 86400 _ _ Hel).
  assert (Hst : stored_text (extract_embedding body) = to_string (ser (extract_embedding body)))
    by (destruct (extract_embedding body); try reflexivity; discriminate Hstr).
  rewrite Hst, (ser_nonempty _ Hsafe). apply JSON_parse_ser. exact Hsafe.
Qed.

(** X15.  When the provider throws, or answers without a truthy
    [data[0].embedding], [getEmbedding] throws (the provider's error, or
    "No embedding returned") after that one call, and caches nothing: the
    store is as before. *)
Theorem getEmbedding_failure_caches_nothing E text st :
  blank text = false ->
  lookup_live st (embed_key text) = None ->
  let reply := embed_post E (EvGet (embed_key text) :: trace st) (EMBED_MODEL E) text in
  let run := getEmbedding E text st in
  (forall e, reply = Throw e -> fst run = Throw e)
  /\ (forall body, reply = Ok body -> truthy (extract_embedding body) = false ->
        fst run = Throw NoEmbedding)
  /\ (forall e, fst run = Throw e ->
        kv (snd run) = kv st
        /\ embed_calls (trace (snd run)) = S (embed_calls (trace st))).
Proof.
  intros Hb Hmiss reply run. unfold run, reply.
  assert (Hget : fst (getSession (embed_key text) st) = Ok JNull)
    by (rewrite getSession_eq; cbn [fst]; rewrite Hmiss; reflexivity).
  rewrite (getEmbedding_miss E text JNull st Hb Hget eq_refl). cbv zeta.
  destruct (embed_post E (EvGet (embed_key text) :: trace st) (EMBED_MODEL E) text)
    as [body|e0].
  - split; [intros e [=]|]. split.
    + intros ? [= <-] Hf. rewrite Hf. reflexivity.
    + destruct (truthy (extract_embedding body)); cbn [fst snd]; intros e He;
        [discriminate He | split; reflexivity].
  - split; [intros e [= <-]; reflexivity|]. split; [intros ? [=]|].
    intros e _. split; reflexivity.
Qed.

(** X16.  Two texts with the same fingerprint share one cache entry: after
    the vector of the first text is cached, [getEmbedding] of the second
    returns the vector of the first and does not call the provider. *)
Theorem colliding_texts_share_embedding E text1 text2 body st :
  fnv1a text1 = fnv1a text2 ->
  blank text1 = false -> blank text2 = false ->
  lookup_live st (embed_key text1) = None ->
  embed_post E (EvGet (embed_key text1) :: trace st) (EMBED_MODEL E) text1 = Ok body ->
  truthy (extract_embedding body) = true ->
  json_safe (extract_embedding body) = true ->
  is_string (extract_embedding body) = false ->
  let st1 := snd (getEmbedding E text1 st) in
  getEmbedding E text2 st1 = (Ok (extract_embedding body), log (EvGet (embed_key text2)) st1).
Proof.
  intros Hfnv Hb1 Hb2 Hmiss Hpost Ht Hsafe Hstr st1. unfold st1.
  assert (Hkey : embed_key text2 = embed_key text1).
  { unfold embed_key. f_equal. symmetry. apply simpleHash_eq_iff. exact Hfnv. }
  assert (Hget : fst (getSession (embed_key text1) st) = Ok JNull)
    by (rewrite getSession_eq; cbn [fst]; rewrite Hmiss; reflexivity).
  rewrite (getEmbedding_miss E text1 JNull st Hb1 Hget eq_refl). cbv zeta.
  rewrite Hpost, Ht. cbn [snd].
  apply getEmbedding_hit; [exact Hb2 | | exact Ht].
  rewrite Hkey, getSession_eq. cbn [fst].
  rewrite (lookup_live_insert st _ _ 86400 _ eq_refl).
  assert (Hst : stored_text (extract_embedding body) = to_string (ser (extract_embedding body)))
    by (destruct (extract_embedding body); try reflexivity; discriminate Hstr).
  rewrite Hst, (ser_nonempty _ Hsafe). apply JSON_parse_ser. exact Hsafe.
Qed.

(** * More of the retrieval engine *)

Definition payloads_of (results : JSValue) : result JSValue :=
  array_map_values (fun r => get_prop r "payload") results.

Definition search_calls (tr : list Event) : nat :=
  length (List.filter (fun e => match e with EvSearch _ _ _ => true | _ => false end) tr).

Lemma retrieveTopK_hit E query k cached st :
  fst (getSession (retrieve_key query k) st) = Ok cached -> truthy cached = true ->
  retrieveTopK E query k st = (Ok cached, log (EvGet (retrieve_key query k)) st).
Proof.
  intros Hget Ht. unfold retrieveTopK. cbv zeta.
  rewrite getSession_eq in Hget. cbn [fst] in Hget.
  erewrite await_step; [| rewrite cacheGet_eq, getSession_eq, Hget; reflexivity].
  rewrite Ht. reflexivity.
Qed.

Lemma payloads_of_array results payloads :
  payloads_of results = Ok payloads -> exists l, payloads = JArr l.
Proof.
  unfold payloads_of, array_map_values. destruct results; try discriminate.
  destruct (map_result _ l) as [l'|]; [|discriminate].
  intros [= <-]. eauto.
Qed.

Lemma retrieveTopK_miss E query k st :
  lookup_live st (retrieve_key query k) = None ->
  retrieveTopK E query k st =
  match getEmbedding E query (log (EvGet (retrieve_key query k)) st) with
  | (Throw e, st2) => (Throw e, st2)
  | (Ok emb, st2) =>
      let st3 := log (EvSearch (COLLECTION E) emb k) st2 in
      match qdrant_search E (trace st2) (COLLECTION E) emb k with
      | Throw e => (Throw e, st3)
      | Ok results =>
          match payloads_of results with
          | Throw e => (Throw e, st3)
          | Ok payloads =>
              (Ok payloads,
               {| kv := <[retrieve_key query k := (to_string (ser payloads), now st2 + 300)]>
                          (kv st2);
                  now := now st2;
                  trace := EvSet (retrieve_key query k) (to_string (ser payloads)) 300
                           :: trace st3 |})
          end
      end
  end.
Proof.
  intros Hmiss. unfold retrieveTopK. cbv zeta.
  erewrite await_step; [| rewrite cacheGet_eq, getSession_eq, Hmiss; reflexivity].
  cbn [truthy]. unfold await at 1.
  destruct (getEmbedding E query (log (EvGet (retrieve_key query k)) st)) as [[emb|e] st2];
    [|reflexivity].
  unfold await at 1.
  destruct (qdrant_search E (trace st2) (COLLECTION E) emb k) as [results|e]; [|reflexivity].
  unfold await at 1, lift. fold (payloads_of results).
  destruct (payloads_of results) as [payloads|e] eqn:Hp; [|reflexivity].
  destruct (payloads_of_array _ _ Hp) as [l ->].
  unfold cacheSet. change (JSON_stringify (JArr l)) with (Some (to_string (ser (JArr l)))).
  erewrite await_step; [| apply lookup_live_set; reflexivity].
  reflexivity.
Qed.

(** X17.  A retrieval that misses the cache embeds the query, searches the
    index once, returns the payloads in the order of the results and caches
    them for five minutes; within those a second [retrieveTopK] of the same
    query and count returns the same payloads after a single read of the
    store, with no embedding and no search. *)
Theorem retrieveTopK_caches_and_reuses E query k emb st2 results payloads elapsed st :
  lookup_live st (retrieve_key query k) = None ->
  getEmbedding E query (log (EvGet (retrieve_key query k)) st) = (Ok emb, st2) ->
  qdrant_search E (trace st2) (COLLECTION E) emb k = Ok (JArr results) ->
  map_result (fun r => get_prop r "payload") results = Ok payloads ->
  forallb json_safe payloads = true ->
  0 <= elapsed < 300 ->
  let first := retrieveTopK E query k st in
  let later := advance elapsed (snd first) in
  fst first = Ok (JArr payloads)
  /\ search_calls (trace (snd first)) = S (search_calls (trace st2))
  /\ retrieveTopK E query k later
     = (Ok (JArr payloads), log (EvGet (retrieve_key query k)) later).
Proof.
  intros Hmiss Hemb Hsearch Hmap Hsafe Hel first later. unfold later, first.
  rewrite (retrieveTopK_miss E query k st Hmiss), Hemb. cbv zeta. rewrite Hsearch.
  unfold payloads_of, array_map_values. rewrite Hmap. cbn [rbind fst snd].
  split; [reflexivity|]. split; [reflexivity|].
  apply retrieveTopK_hit; [|reflexivity].
  rewrite getSession_eq. cbn [fst].
  rewrite (lookup_live_advance_insert st2 _ _ 300 _ _ Hel).
  rewrite (ser_nonempty (JArr payloads) Hsafe). apply JSON_parse_ser. exact Hsafe.
Qed.

(** X18.  A failure inside a retrieval is passed on and no payloads are
    cached: when the embedding fails the index is not searched at all, and
    when the search fails, or a result is [null], the entry under the
    retrieval key stays as it was. *)
Theorem retrieveTopK_failure_caches_nothing E query k st :
  lookup_live st (retrieve_key query k) = None ->
  (forall e st2,
     getEmbedding E query (log (EvGet (retrieve_key query k)) st) = (Throw e, st2) ->
     retrieveTopK E query k st = (Throw e, st2))
  /\ (forall e st',
        retrieveTopK E query k st = (Throw e, st') ->
        untouched (retrieve_key query k) st st').
Proof.
  intros Hmiss. split.
  - intros e st2 Hemb. rewrite (retrieveTopK_miss E query k st Hmiss), Hemb. reflexivity.
  - intros e st' H. rewrite (retrieveTopK_miss E query k st Hmiss) in H.
    assert (Hk : untouched (retrieve_key query k) st
                   (snd (getEmbedding E query (log (EvGet (retrieve_key query k)) st)))).
    { apply (keeps_getEmbedding E (retrieve_key query k) query
               ltac:(intros Heq; symmetry in Heq; revert Heq; apply embed_retrieve_apart)
               (log (EvGet (retrieve_key query k)) st)). }
    destruct (getEmbedding E query (log (EvGet (retrieve_key query k)) st)) as [[emb|e0] st2];
      cbn [snd] in Hk.
    + cbv zeta in H.
      destruct (qdrant_search E (trace st2) (COLLECTION E) emb k) as [results|e1];
        [destruct (payloads_of results) as [payloads|e2]; [discriminate H|]|];
        injection H as _ <-; exact Hk.
    + injection H as _ <-. exact Hk.
Qed.

(** X19.  A blank query is not embedded but is still searched: with no
    cached payloads the index is asked with the vector [null]. *)
Theorem retrieveTopK_blank_query_searches_with_null E query k st :
  blank query = true ->
  lookup_live st (retrieve_key query k) = None ->
  exists later,
    trace (snd (retrieveTopK E query k st))
    = later ++ EvSearch (COLLECTION E) JNull k :: EvGet (retrieve_key query k) :: trace st
    /\ embed_calls (trace (snd (retrieveTopK E query k st))) = embed_calls (trace st).
Proof.
  intros Hb Hmiss. rewrite (retrieveTopK_miss E query k st Hmiss).
  assert (Hemb : forall s, getEmbedding E query s = (Ok JNull, s)).
  { intros s. unfold getEmbedding. unfold blank in Hb. rewrite Hb. reflexivity. }
  rewrite Hemb. cbv zeta. cbn [trace log].
  destruct (qdrant_search E (EvGet (retrieve_key query k) :: trace st) (COLLECTION E) JNull k)
    as [results|e]; [destruct (payloads_of results) as [payloads|e]|];
    cbn [snd trace log].
  - eexists [_]. split; reflexivity.
  - exists []. split; reflexivity.
  - exists []. split; reflexivity.
Qed.

(** * More of the generation call and of the chat route *)

(** X20.  [askModel] returns the text of the first part of the first
    candidate and ignores every other candidate and part; an empty text
    gives [null]; the store is not touched and the provider is called once
    with the prompt. *)
Theorem askModel_takes_first_text E prompt reply candidate more_candidates
    content part more_parts text st :
  generate_post E (trace st) prompt = Ok reply ->
  own_prop reply "candidates" = JArr (candidate :: more_candidates) ->
  own_prop candidate "content" = content ->
  own_prop content "parts" = JArr (part :: more_parts) ->
  own_prop part "text" = JStr text ->
  askModel E prompt st
  = (Ok (if String.eqb text "" then JNull else JStr text), log (EvGenerate prompt) st).
Proof.
  intros Hreply Hc Hcontent Hparts Htext. rewrite askModel_eq, Hreply.
  unfold first_text, opt_prop. rewrite Hc. cbn [opt_first].
  rewrite Hcontent, Hparts. cbn [opt_first]. rewrite Htext.
  unfold js_or. cbn [truthy]. destruct (String.eqb text ""); reflexivity.
Qed.

Definition valid_query (body : JSValue) : bool :=
  match own_prop (js_or body (JObj [])) "query" with
  | JStr q => negb (String.eqb q "")
  | _ => false
  end.

(** X21.  A request whose body has no [query], or a [query] that is empty
    or not a string, is answered 400 before anything happens: the store is
    not read, no provider is called, the world is as before. *)
Theorem post_chat_rejects_bad_query E sessionId body st :
  valid_query body = false ->
  post_chat E sessionId body st = (BadRequest, st).
Proof.
  unfold valid_query, post_chat. cbv zeta.
  destruct (own_prop (js_or body (JObj [])) "query") as [| | | |q| |]; try reflexivity.
  cbn [truthy]. intros H. rewrite H. reflexivity.
Qed.

(** X22.  A chat turn whose steps all succeed answers 200 with the answer
    of the model and the history grown by the turn {query, answer}, stores
    that history under the session id with a fresh expiry, and while the
    turn is serializable [getSession] returns it. *)
Theorem chat_turn_appends_answer E sessionId query topK st
    stored st1 passages st2 prompt reply reread l elapsed :
  getSession sessionId st = (Ok stored, st1) ->
  retrieveTopK E query (chat_k topK) st1 = (Ok passages, st2) ->
  buildPromptWithHistory (js_or stored (JArr [])) query passages = Ok prompt ->
  generate_post E (trace st2) prompt = Ok reply ->
  fst (getSession sessionId (log (EvGenerate prompt) st2)) = Ok reread ->
  js_or reread (JArr []) = JArr l ->
  0 <= elapsed < SESSION_TTL E ->
  let answer := js_or (first_text reply) JNull in
  let turn := JObj [("query", JStr query); ("answer", answer)] in
  let run := chat_turn E sessionId query topK st in
  fst run = Ok (ChatOk sessionId query answer (JArr (l ++ [turn])))
  /\ kv (snd run) !! sessionId
     = Some (to_string (ser (JArr (l ++ [turn]))), now st2 + SESSION_TTL E)
  /\ (forallb json_safe (l ++ [turn]) = true ->
      fst (getSession sessionId (advance elapsed (snd run))) = Ok (JArr (l ++ [turn]))).
Proof.
  intros H1 H2 H3 H4 H6 H7 Httl answer turn run.
  assert (Hask : askModel E prompt st2 = (Ok answer, log (EvGenerate prompt) st2))
    by (rewrite askModel_eq, H4; reflexivity).
  assert (Hrun : run =
    (Ok (ChatOk sessionId query answer (JArr (l ++ [turn]))),
     {| kv := <[sessionId := (to_string (ser (JArr (l ++ [turn]))),
                              now st2 + SESSION_TTL E)]> (kv st2);
        now := now st2;
        trace := EvSet sessionId (to_string (ser (JArr (l ++ [turn]))))
                   (SESSION_TTL E) :: EvGet sessionId :: EvGenerate prompt :: trace st2 |})).
  { unfold run, chat_turn.
    rewrite (await_step _ _ _ _ _ H1). fold (chat_k topK).
    rewrite (await_step _ _ _ _ _ H2). rewrite H3.
    erewrite await_step; [| reflexivity].
    rewrite (await_step _ _ _ _ _ Hask).
    erewrite await_step;
      [| apply (appendToSession_array E sessionId turn None _ reread l H6 H7); cbn [ttl_or]; lia].
    reflexivity. }
  rewrite Hrun. cbn [fst snd kv]. split; [reflexivity|].
  split; [apply lookup_insert_eq|].
  intros Hsafe. rewrite getSession_eq. cbn [fst].
  rewrite (lookup_live_advance_insert (log (EvGet sessionId) (log (EvGenerate prompt) st2))
             _ _ _ _ _ Httl).
  rewrite (ser_nonempty (JArr (l ++ [turn])) Hsafe). apply JSON_parse_ser. exact Hsafe.
Qed.

Lemma trim_start_decimal z : trim_start (Z_to_decimal z) = Z_to_decimal z.
Proof.
  unfold Z_to_decimal. destruct (z <? 0); [reflexivity|].
  destruct (N_to_decimal_spec (Z.to_N z)) as (Hall & _ & Hhead).
  destruct (N_to_decimal (Z.to_N z)) as [|c ds]; [reflexivity|].
  inversion Hall as [|? ? Hc _]. cbn [trim_start].
  assert (Hs : is_js_space c = false).
  { destruct c as [[] [] [] [] [] [] [] []]; try discriminate Hc; reflexivity. }
  rewrite Hs. reflexivity.
Qed.

Lemma read_decimal n :
  exists c ds, N_to_decimal n = c :: ds /\ is_digit c = true
               /\ Ascii.eqb c "-" = false /\ Ascii.eqb c "+" = false
               /\ fst (read_digits (c :: ds) 0) = n.
Proof.
  destruct (N_to_decimal_spec n) as (Hall & Hv & Hhead).
  destruct (N_to_decimal n) as [|c ds] eqn:E; [contradiction|].
  exists c, ds. assert (Hc : is_digit c = true) by (inversion Hall; assumption).
  split; [reflexivity|]. split; [exact Hc|].
  split; [apply is_digit_not_minus; exact Hc|].
  split; [destruct c as [[] [] [] [] [] [] [] []]; try discriminate Hc; reflexivity|].
  pose proof (read_digits_all (c :: ds) [] 0%N Hall I) as Hr.
  rewrite app_nil_r in Hr. rewrite Hr. exact Hv.
Qed.

Lemma parseInt_decimal z : parseInt (decimal z) = Int z.
Proof.
  unfold parseInt, decimal. rewrite of_to_string, trim_start_decimal.
  unfold Z_to_decimal. destruct (Z.ltb_spec z 0) as [Hneg|Hpos].
  - destruct (read_decimal (Z.to_N (- z))) as (c & ds & -> & Hc & _ & _ & Hr).
    change (Ascii.eqb "-" "-") with true. cbv iota. rewrite Hc, Hr. f_equal. lia.
  - destruct (read_decimal (Z.to_N z)) as (c & ds & E & Hc & Hm & Hp & Hr).
    rewrite E, Hm, Hp, Hc, Hr. f_equal. lia.
Qed.

(** X23.  The result count of a chat turn: a [topK] that is missing or
    falsy, the number 0 included, gives 5; any other safe integer gives
    itself; a string of its decimal digits gives the number it denotes,
    "0" included. *)
Theorem chat_k_of_topK topK z :
  safe_integer z = true ->
  (truthy topK = false -> chat_k topK = Int 5)
  /\ chat_k (JNum z) = Int (if z =? 0 then 5 else z)
  /\ chat_k (JStr (decimal z)) = Int z.
Proof.
  intros _. split; [|split].
  - intros H. unfold chat_k, js_or. rewrite H. reflexivity.
  - unfold chat_k, js_or. cbn [truthy]. destruct (z =? 0); [reflexivity|].
    cbn [negb ToString]. apply parseInt_decimal.
  - unfold chat_k, js_or. cbn [truthy].
    assert (Hne : String.eqb (decimal z) "" = false).
    { unfold decimal, Z_to_decimal. destruct (z <? 0); [reflexivity|].
      destruct (N_to_decimal_spec (Z.to_N z)) as (_ & _ & Hhead).
      destruct (N_to_decimal (Z.to_N z)); [contradiction | reflexivity]. }
    rewrite Hne. cbn [negb ToString]. apply parseInt_decimal.
Qed.

(** * The other routes *)

(** X24.  POST /sessions answers 201 with the generated id, and until the
    session expires GET /sessions/:id/history for that id answers 200 with
    the empty history. *)
Theorem created_session_has_history E elapsed st :
  0 <= elapsed < SESSION_TTL E ->
  let id := uuid_v4 E (trace st) in
  let created := post_sessions E st in
  fst created = mkResponse 201 (JObj [("sessionId", JStr id)])
  /\ fst (get_history id (advance elapsed (snd created)))
     = mkResponse 200 (JObj [("sessionId", JStr id); ("history", JArr [])]).
Proof.
  intros Httl id created. unfold created, post_sessions, createSession.
  change (JSON_stringify (JArr [])) with (Some "[]"). cbn [ttl_or].
  erewrite await_step; [| reflexivity].
  erewrite await_step; [| apply lookup_live_set; lia].
  cbn [ret fst snd]. split; [reflexivity|].
  unfold get_history. rewrite getSession_eq.
  rewrite (lookup_live_advance_insert (log EvUuid st) _ _ _ _ _ Httl). reflexivity.
Qed.


(** X26.  DELETE /sessions/:id on an id that was never created does not
    fail: it answers 200 with the empty history and creates the session, so
    that the history route, 404 before, answers 200 afterwards. *)
Theorem delete_creates_session E id elapsed st :
  lookup_live st id = None ->
  0 <= elapsed < SESSION_TTL E ->
  let deleted := delete_session E id st in
  status (fst (get_history id st)) = 404
  /\ fst deleted = mkResponse 200 (JObj [("sessionId", JStr id); ("history", JArr [])])
  /\ fst (get_history id (advance elapsed (snd deleted)))
     = mkResponse 200 (JObj [("sessionId", JStr id); ("history", JArr [])]).
Proof.
  intros Hmiss Httl deleted. unfold deleted, delete_session, clearSession.
  change (JSON_stringify (JArr [])) with (Some "[]"). cbn [ttl_or].
  erewrite await_step; [| apply lookup_live_set; lia].
  cbn [ret fst snd]. split; [|split; [reflexivity|]].
  - unfold get_history. rewrite getSession_eq, Hmiss. reflexivity.
  - unfold get_history. rewrite getSession_eq.
    rewrite (lookup_live_advance_insert st _ _ _ _ _ Httl). reflexivity.
Qed.

(** * Ingestion *)

(** The store and the clock of the world are as before. *)
Definition same_store (s s' : IngestState) : Prop :=
  kv (world s') = kv (world s) /\ now (world s') = now (world s).

Lemma same_store_refl s : same_store s s.
Proof. split; reflexivity. Qed.

Lemma same_store_trans s1 s2 s3 : same_store s1 s2 -> same_store s2 s3 -> same_store s1 s3.
Proof. intros [H1 H2] [H3 H4]. split; congruence. Qed.

Definition nullish (v : JSValue) : bool :=
  match v with
  | JUndefined | JNull => true
  | _ => false
  end.

Lemma get_prop_ok v k : nullish v = false -> get_prop v k = Ok (own_prop v k).
Proof. destruct v; try discriminate; reflexivity. Qed.

Lemma article_of_outcome E it s :
  let s1 := {| world := log EvUuid (world s); calls := calls s |} in
  (nullish it = true /\ article_of E it s = (Throw TypeError, s1))
  \/ (nullish it = false /\ exists a, article_of E it s = (Ok a, s1)).
Proof.
  cbv zeta. unfold article_of, iawait, in_world, uuid. cbn [world calls].
  destruct it; cbn [get_prop ilift nullish];
    first [left; split; reflexivity | right; split; [reflexivity | eexists; reflexivity]].
Qed.

Lemma map_items_outcome E items : forall s,
  exists r s', map_items E items s = (r, s')
    /\ same_store s s' /\ calls s' = calls s
    /\ (forall mapped, r = Ok mapped -> length mapped = length items)
    /\ (forallb (fun it => negb (nullish it)) items = true -> exists mapped, r = Ok mapped).
Proof.
  induction items as [|it rest IH]; intros s.
  - exists (Ok []), s. repeat split; try reflexivity.
    + intros mapped [= <-]. reflexivity.
    + intros _. eauto.
  - cbn [map_items]. unfold iawait at 1.
    destruct (article_of_outcome E it s) as [[Hn ->] | [Hn [a ->]]].
    + eexists _, _. split; [reflexivity|]. repeat split; try reflexivity.
      * intros mapped [=].
      * cbn [forallb]. rewrite Hn. discriminate.
    + destruct (IH {| world := log EvUuid (world s); calls := calls s |})
        as (r & s' & Hrest & Hsame & Hcalls & Hlen & Hok).
      unfold iawait at 1. rewrite Hrest.
      destruct r as [others|e].
      * eexists _, _. split; [reflexivity|]. repeat split; try apply Hsame; try exact Hcalls.
        -- intros mapped [= <-]. cbn [length]. f_equal. apply Hlen. reflexivity.
        -- intros _. eauto.
      * eexists _, _. split; [reflexivity|]. repeat split; try apply Hsame; try exact Hcalls.
        -- intros mapped [=].
        -- cbn [forallb]. rewrite Hn. cbn [negb andb]. intros H.
           destruct (Hok H) as [mapped [=]].
Qed.

Lemma fetch_feed_outcome E I limit url articles s :
  exists r s', fetch_feed E I limit url articles s = (r, s')
    /\ same_store s s'
    /\ (forall articles' stop, r = Ok (articles', stop) ->
          (length articles <= length articles')%nat
          /\ (stop = (Z.of_nat (length articles') >=? limit)
              \/ (stop = false /\ articles' = articles))).
Proof.
  unfold fetch_feed, iawait at 1.
  destruct (parseURL I s url) as [feed|e];
    [| eexists _, _; split; [reflexivity | split; [(split; reflexivity) | intros ? ? [=]]]].
  unfold iawait at 1, ilift.
  destruct (get_prop feed "items") as [items|e];
    [| eexists _, _; split; [reflexivity | split; [(split; reflexivity) | intros ? ? [=]]]].
  destruct (truthy items && truthy (js_length items));
    [| eexists _, _; split; [reflexivity | split; [(split; reflexivity)|]];
       intros ? ? [= <- <-]; split; [lia | right; split; reflexivity]].
  destruct items as [| | | | |l|];
    try (eexists _, _; split; [reflexivity | split; [(split; reflexivity) | intros ? ? [=]]]).
  destruct (map_items_outcome E l (called (CallParseURL url) s))
    as (r & s' & Hmap & Hsame & _ & _ & _).
  unfold iawait. rewrite Hmap. destruct r as [mapped|e].
  - eexists _, _. split; [reflexivity|]. split; [exact Hsame|].
    intros ? ? [= <- <-]. split; [rewrite length_app; lia | left; reflexivity].
  - eexists _, _. split; [reflexivity|]. split; [exact Hsame | intros ? ? [=]].
Qed.

Lemma fetch_loop_outcome E I limit feeds : forall articles s,
  exists result s', fetch_loop E I limit feeds articles s = (Ok result, s')
    /\ same_store s s'.
Proof.
  induction feeds as [|url rest IH]; intros articles s.
  - exists articles, s. split; [reflexivity | apply same_store_refl].
  - cbn [fetch_loop].
    destruct (fetch_feed_outcome E I limit url articles s) as (r & s1 & -> & Hsame & _).
    destruct r as [[articles' [|]]|e].
    + eexists _, _. split; [reflexivity | exact Hsame].
    + destruct (IH articles' s1) as (result & s' & -> & Hsame').
      eexists _, _. split; [reflexivity | eapply same_store_trans; eassumption].
    + destruct (IH articles s1) as (result & s' & -> & Hsame').
      eexists _, _. split; [reflexivity | eapply same_store_trans; eassumption].
Qed.

Lemma slice0_length {A} (l : list A) n : 0 <= n -> (Z.of_nat (length (slice0 l n)) <= n).
Proof.
  intros Hn. unfold slice0. destruct (Z.ltb_spec n 0); [lia|].
  rewrite length_firstn. lia.
Qed.


Lemma slice0_exact {A} (l : list A) n :
  0 <= n <= Z.of_nat (length l) -> Z.of_nat (length (slice0 l n)) = n.
Proof.
  intros Hn. unfold slice0. destruct (Z.ltb_spec n 0); [lia|].
  rewrite length_firstn. lia.
Qed.

(** X28.  The loop over the feeds breaks as soon as the limit is reached:
    when the first feed alone brings at least [limit] items, no other feed
    is fetched and exactly [limit] articles are returned. *)
Theorem fetchArticles_stops_at_limit E I limit feed items s :
  parseURL I s "https://feeds.bbci.co.uk/news/world/rss.xml" = Ok feed ->
  get_prop feed "items" = Ok (JArr items) ->
  forallb (fun it => negb (nullish it)) items = true ->
  items <> [] -> 0 <= limit <= Z.of_nat (length items) ->
  exists articles s',
    fetchArticles E I (Some limit) s = (Ok articles, s')
    /\ Z.of_nat (length articles) = limit
    /\ calls s' = CallParseURL "https://feeds.bbci.co.uk/news/world/rss.xml" :: calls s.
Proof.
  intros Hfeed Hitems Hok Hne Hlimit.
  destruct (map_items_outcome E items
              (called (CallParseURL "https://feeds.bbci.co.uk/news/world/rss.xml") s))
    as (r & s' & Hmap & _ & Hcalls & Hlen & Htotal).
  destruct (Htotal Hok) as [mapped ->]. specialize (Hlen mapped eq_refl).
  assert (Hloop : fetch_loop E I limit RSS_FEEDS [] s = (Ok mapped, s')).
  { unfold RSS_FEEDS. cbn [fetch_loop]. unfold fetch_feed, iawait at 1. rewrite Hfeed.
    unfold iawait at 1, ilift. rewrite Hitems.
    assert (Ht : truthy (JArr items) && truthy (js_length (JArr items)) = true).
    { cbn [truthy js_length andb]. destruct items; [contradiction|].
      cbn [length]. destruct (Z.eqb_spec (Z.of_nat (S (length items))) 0); [lia | reflexivity]. }
    rewrite Ht. unfold iawait. rewrite Hmap. cbn [app iret].
    destruct (Z.geb_spec (Z.of_nat (length mapped)) limit); [reflexivity | lia]. }
  exists (slice0 mapped limit), s'.
  unfold fetchArticles. cbv zeta. cbn [ttl_or]. unfold iawait. rewrite Hloop. cbn [iret].
  split; [reflexivity|]. split; [apply slice0_exact; lia | exact Hcalls].
Qed.

(** The point that [ingestToQdrant] pushes for an article and its vector. *)
Definition point_of (a vector : JSValue) : JSValue :=
  JObj [("id", own_prop a "id"); ("vector", vector);
        ("payload", JObj [("title", own_prop a "title");
                          ("content", own_prop a "content");
                          ("link", own_prop a "link")])].



Lemma iawait_step {A B} (m : Ingest A) (k : A -> Ingest B) s a s1 :
  m s = (Ok a, s1) -> iawait m k s = k a s1.
Proof. intros H. unfold iawait. rewrite H. reflexivity. Qed.




(** An article whose content yields no text to embed: missing, falsy or
    white space only. *)
Definition textless (a : JSValue) : bool :=
  negb (nullish a) &&
  match own_prop a "content" with
  | JStr text => blank text
  | v => negb (truthy v)
  end.

Lemma getEmbedding_of_textless E a st :
  textless a = true -> getEmbedding_of E (own_prop a "content") st = (Ok JNull, st).
Proof.
  unfold textless, getEmbedding_of. intros H. apply andb_prop in H as [_ H].
  destruct (own_prop a "content") as [| |b|z|text|l|m]; try discriminate H;
    try (cbn [truthy] in *; rewrite (negb_true_iff _ ) in H; rewrite H); try reflexivity.
  unfold getEmbedding. unfold blank in H. rewrite H. reflexivity.
Qed.

Lemma embed_articles_textless E articles : forall points s,
  forallb textless articles = true ->
  embed_articles E articles points s
  = (Ok (points ++ map (fun a => point_of a JNull) articles), s).
Proof.
  induction articles as [|a rest IH]; intros points s Hall.
  - cbn [map]. rewrite app_nil_r. reflexivity.
  - cbn [forallb] in Hall. apply andb_prop in Hall as [Ha Hrest].
    cbn [embed_articles].
    assert (Hn : nullish a = false)
      by (unfold textless in Ha; destruct (nullish a); [discriminate Ha | reflexivity]).
    erewrite iawait_step; [| unfold ilift; rewrite (get_prop_ok _ _ Hn); reflexivity].
    erewrite iawait_step;
      [| unfold in_world; rewrite (getEmbedding_of_textless E a _ Ha); reflexivity].
    destruct s as [w c]. cbn [world calls].
    rewrite (IH _ _ Hrest). cbn [map]. rewrite <- app_assoc. reflexivity.
Qed.

(** X30.  Articles without text are indexed all the same: for an article
    whose content is missing, falsy or blank no embedding is requested and
    nothing is read from the store, and its point is upserted with the
    vector [null]. *)
Theorem ingestToQdrant_textless_articles E I articles s :
  forallb textless articles = true ->
  let body := JObj [("points", JArr (map (fun a => point_of a JNull) articles))] in
  ingestToQdrant E I articles s
  = (qdrant_upsert I s (COLLECTION E) body, called (CallUpsert (COLLECTION E) body) s).
Proof.
  intros Hall body. unfold ingestToQdrant, iawait.
  rewrite (embed_articles_textless E articles [] s Hall). reflexivity.
Qed.

(** X10.  POST /ingest fails only when the embedding or the upsert fails:
    the feeds never make it fail, and neither does a collection that cannot
    be recreated.  It answers 200 with the number of articles fetched, at
    most 100, when [ingestToQdrant] returns, and 500 when it throws. *)
Theorem post_ingest_outcome E I s :
  exists articles s1,
    fetchArticles E I None s = (Ok articles, s1)
    /\ (length articles <= 100)%nat
    /\ post_ingest E I s
       = match ingestToQdrant E I articles
                 (called (CallRecreate (COLLECTION E) (EMBED_SIZE I)) s1) with
         | (Ok _, s3) =>
             (mkResponse 200 (JObj [("status", JStr "ok");
                                    ("ingested", JNum (Z.of_nat (length articles)))]), s3)
         | (Throw _, s3) => (mkResponse 500 (error_body "failed to ingest"), s3)
         end.
Proof.
  assert (Hfetch : exists articles s1,
            fetchArticles E I None s = (Ok articles, s1) /\ (length articles <= 100)%nat).
  { unfold fetchArticles. cbv zeta. unfold iawait.
    destruct (fetch_loop_outcome E I (ttl_or 100 None) RSS_FEEDS [] s)
      as (result & s' & -> & _).
    eexists _, _. split; [reflexivity|].
    pose proof (slice0_length result (ttl_or 100 None)) as Hlen. cbn [ttl_or] in *. lia. }
  destruct Hfetch as (articles & s1 & Hf & Hlen).
  exists articles, s1. split; [exact Hf|]. split; [exact Hlen|].
  unfold post_ingest. erewrite iawait_step; [| exact Hf].
  assert (Hinit : initCollection E I s1
                  = (Ok tt, called (CallRecreate (COLLECTION E) (EMBED_SIZE I)) s1)).
  { unfold initCollection. destruct (recreateCollection I s1 _ _); reflexivity. }
  erewrite iawait_step; [| exact Hinit].
  unfold iawait.
  destruct (ingestToQdrant E I articles _) as [[[]|e] s3]; reflexivity.
Qed.

(** * The further theorems at concrete inputs *)

Ltac in_range := vm_compute; split; [discriminate | reflexivity].

Definition hi_hello : JSValue := turn_value (mkTurn "hi" "hello").

Lemma saveSession_then_getSession_witness :
  let run := saveSession no_text "sess1" (JArr [hi_hello]) None empty_state in
  fst run = Ok (JArr [hi_hello])
  /\ fst (getSession "sess1" (advance 100 (snd run))) = Ok (JArr [hi_hello])
  /\ (forall key, key <> "sess1" -> kv (snd run) !! key = kv empty_state !! key).
Proof.
  apply (saveSession_then_getSession no_text "sess1" (JArr [hi_hello]) None 100 empty_state);
    [reflexivity | in_range].
Defined.

Lemma clearSession_resets_witness :
  let run := clearSession no_text "sess1" None (holding "sess1" "not json") in
  fst run = Ok (JArr [])
  /\ fst (getSession "sess1" (advance 100 (snd run))) = Ok (JArr [])
  /\ (forall key, key <> "sess1" ->
        kv (snd run) !! key = kv (holding "sess1" "not json") !! key)
  /\ trace (snd run)
     = EvSet "sess1" "[]" (ttl_or (SESSION_TTL no_text) None)
       :: trace (holding "sess1" "not json").
Proof.
  apply (clearSession_resets no_text "sess1" None 100 (holding "sess1" "not json")).
  in_range.
Defined.

Lemma appendToSession_starts_history_witness :
  let run := appendToSession no_text "sess1" hi_hello None (holding "sess1" "0") in
  fst run = Ok (JArr [hi_hello])
  /\ fst (getSession "sess1" (advance 100 (snd run))) = Ok (JArr [hi_hello]).
Proof.
  apply (appendToSession_starts_history no_text "sess1" hi_hello None 100 (JNum 0)
           (holding "sess1" "0"));
    [vm_compute; reflexivity | reflexivity | reflexivity | in_range].
Defined.

Lemma appendToSession_failure_changes_nothing_witness :
  kv (snd (appendToSession no_text "sess1" hi_hello None (holding "sess1" "123")))
  = kv (holding "sess1" "123")
  /\ now (snd (appendToSession no_text "sess1" hi_hello None (holding "sess1" "123")))
     = now (holding "sess1" "123").
Proof.
  apply (appendToSession_failure_changes_nothing no_text "sess1" hi_hello None
           (holding "sess1" "123") TypeError).
  vm_compute. reflexivity.
Defined.

Lemma appendToSession_non_array_witness :
  appendToSession no_text "sess1" hi_hello None (holding "sess1" "{}")
  = (Throw TypeError, log (EvGet "sess1") (holding "sess1" "{}")).
Proof.
  apply (appendToSession_non_array no_text "sess1" hi_hello None (JObj [])
           (holding "sess1" "{}"));
    [vm_compute; reflexivity | reflexivity | reflexivity].
Defined.

Lemma reads_do_not_extend_expiry_witness :
  let st1 := snd (getSession "sess1" (advance 1000 (holding "sess1" "[]"))) in
  kv st1 !! "sess1" = Some ("[]", 1800)
  /\ fst (getSession "sess1" (advance 800 st1)) = Ok JNull.
Proof.
  apply (reads_do_not_extend_expiry "sess1" "[]" 1800 1000 800 (holding "sess1" "[]"));
    [vm_compute; reflexivity | discriminate | discriminate | discriminate].
Defined.

Lemma appendToSession_refreshes_expiry_witness :
  let st := advance 1799 (holding "sess1" "[]") in
  let st1 := snd (appendToSession no_text "sess1" hi_hello (Some 60) st) in
  (exists value,
     kv st1 !! "sess1" = Some (value, now st + ttl_or (SESSION_TTL no_text) (Some 60)))
  /\ fst (getSession "sess1" (advance 59 st1)) = Ok (JArr ([] ++ [hi_hello])).
Proof.
  apply (appendToSession_refreshes_expiry no_text "sess1" [] hi_hello (Some 60) 59
           (advance 1799 (holding "sess1" "[]")));
    [vm_compute; reflexivity | reflexivity | reflexivity | in_range].
Defined.

Lemma sessions_are_independent_witness :
  let st := holding "sess2" "[]" in
  untouched "sess2" st (snd (appendToSession no_text "sess1" hi_hello None st))
  /\ untouched "sess2" st (snd (saveSession no_text "sess1" (JArr []) None st))
  /\ untouched "sess2" st (snd (clearSession no_text "sess1" None st))
  /\ ("sess1" <> "" ->
      untouched "sess2" st (snd (createSession no_text (Some "sess1") None st))).
Proof.
  apply (sessions_are_independent no_text "sess1" "sess2" hi_hello (JArr []) None
           (holding "sess2" "[]")).
  discriminate.
Defined.

Lemma created_session_is_listed_witness :
  exists keys,
    fst (getAllKeys (advance 100 (snd (createSession no_text (Some "sess1") None empty_state))))
    = Ok keys
    /\ In "sess1" keys.
Proof.
  apply (created_session_is_listed no_text "sess1" None 100 empty_state);
    [reflexivity | in_range].
Defined.

Definition vector_reply : JSValue :=
  JObj [("data", JArr [JObj [("embedding", JArr [JNum 1; JNum 2])]])].

Definition no_vector : Env :=
  {| SESSION_TTL := 1800; EMBED_MODEL := "jina-embeddings-v2-base-en";
     COLLECTION := "news_articles";
     uuid_v4 := fun _ => "00000000-0000-4000-8000-000000000000";
     embed_post := fun _ _ _ => Ok (JObj [("data", JArr [])]);
     qdrant_search := fun _ _ _ _ => Ok (JArr []);
     generate_post := fun _ _ => Ok (JObj []) |}.

Definition text_reply : JSValue :=
  JObj [("candidates",
         JArr [JObj [("content",
                      JObj [("parts", JArr [JObj [("text", JStr "X is a letter.")];
                                            JObj [("text", JStr "ignored")]])])];
               JObj [("content", JObj [("parts", JArr [JObj [("text", JStr "other")]])])]])].

Definition answering : Env :=
  {| SESSION_TTL := 1800; EMBED_MODEL := "jina-embeddings-v2-base-en";
     COLLECTION := "news_articles";
     uuid_v4 := fun _ => "00000000-0000-4000-8000-000000000000";
     embed_post := fun _ _ _ => Ok vector_reply;
     qdrant_search := fun _ _ _ _ =>
       Ok (JArr [JObj [("payload", passage_value (mkPassage "T" "C" None))]]);
     generate_post := fun _ _ => Ok text_reply |}.

Lemma getEmbedding_caches_and_reuses_witness :
  let first := getEmbedding answering "hi" empty_state in
  let later := advance 1000 (snd first) in
  fst first = Ok (extract_embedding vector_reply)
  /\ embed_calls (trace (snd first)) = S (embed_calls (trace empty_state))
  /\ getEmbedding answering "hi" later
     = (Ok (extract_embedding vector_reply), log (EvGet (embed_key "hi")) later).
Proof.
  apply (getEmbedding_caches_and_reuses answering "hi" vector_reply 1000 empty_state);
    [reflexivity | reflexivity | reflexivity | reflexivity | reflexivity | reflexivity
    | in_range].
Defined.

Lemma getEmbedding_failure_caches_nothing_witness :
  fst (getEmbedding no_vector "hi" empty_state) = Throw NoEmbedding.
Proof.
  refine (proj1 (proj2 (getEmbedding_failure_caches_nothing no_vector "hi" empty_state _ _))
            (JObj [("data", JArr [])]) _ _); reflexivity.
Defined.

Lemma colliding_texts_share_embedding_witness :
  let st1 := snd (getEmbedding answering "costarring" empty_state) in
  getEmbedding answering "liquid" st1
  = (Ok (extract_embedding vector_reply), log (EvGet (embed_key "liquid")) st1).
Proof.
  apply (colliding_texts_share_embedding answering "costarring" "liquid" vector_reply
           empty_state);
    [vm_compute; reflexivity | reflexivity | reflexivity | reflexivity | reflexivity
    | reflexivity | reflexivity | reflexivity].
Defined.

Definition after_embedding : State :=
  snd (getEmbedding answering "hi" (log (EvGet (retrieve_key "hi" (Int 5))) empty_state)).

Lemma retrieveTopK_caches_and_reuses_witness :
  let first := retrieveTopK answering "hi" (Int 5) empty_state in
  let later := advance 299 (snd first) in
  fst first = Ok (JArr [passage_value (mkPassage "T" "C" None)])
  /\ search_calls (trace (snd first)) = S (search_calls (trace after_embedding))
  /\ retrieveTopK answering "hi" (Int 5) later
     = (Ok (JArr [passage_value (mkPassage "T" "C" None)]),
        log (EvGet (retrieve_key "hi" (Int 5))) later).
Proof.
  apply (retrieveTopK_caches_and_reuses answering "hi" (Int 5) (JArr [JNum 1; JNum 2])
           after_embedding [JObj [("payload", passage_value (mkPassage "T" "C" None))]]
           [passage_value (mkPassage "T" "C" None)] 299 empty_state);
    [reflexivity | vm_compute; reflexivity | reflexivity | reflexivity | reflexivity
    | in_range].
Defined.

Lemma retrieveTopK_failure_caches_nothing_witness :
  untouched (retrieve_key "hi" (Int 5)) empty_state
    (snd (retrieveTopK search_down "hi" (Int 5) empty_state)).
Proof.
  refine (proj2 (retrieveTopK_failure_caches_nothing search_down "hi" (Int 5) empty_state _)
            (RequestError "index unavailable")
            (snd (retrieveTopK search_down "hi" (Int 5) empty_state)) _).
  - reflexivity.
  - vm_compute. reflexivity.
Defined.

Lemma retrieveTopK_blank_query_searches_with_null_witness :
  exists later,
    trace (snd (retrieveTopK answering "   " (Int 5) empty_state))
    = later ++ EvSearch (COLLECTION answering) JNull (Int 5)
               :: EvGet (retrieve_key "   " (Int 5)) :: trace empty_state
    /\ embed_calls (trace (snd (retrieveTopK answering "   " (Int 5) empty_state)))
       = embed_calls (trace empty_state).
Proof.
  apply (retrieveTopK_blank_query_searches_with_null answering "   " (Int 5) empty_state);
    [reflexivity | reflexivity].
Defined.

Lemma askModel_takes_first_text_witness :
  askModel answering "prompt" empty_state
  = (Ok (if String.eqb "X is a letter." "" then JNull else JStr "X is a letter."),
     log (EvGenerate "prompt") empty_state).
Proof.
  eapply (askModel_takes_first_text answering "prompt" text_reply); reflexivity.
Defined.

Lemma post_chat_rejects_bad_query_witness :
  post_chat answering "sess1" (JObj [("query", JNum 7); ("topK", JNum 3)]) empty_state
  = (BadRequest, empty_state).
Proof. apply post_chat_rejects_bad_query. reflexivity. Defined.

Definition answering_retrieved : State :=
  snd (retrieveTopK answering "hi" (Int 5) (snd (getSession "sess1" empty_state))).

Lemma chat_turn_appends_answer_witness :
  let answer := js_or (first_text text_reply) JNull in
  let turn := JObj [("query", JStr "hi"); ("answer", answer)] in
  let run := chat_turn answering "sess1" "hi" JUndefined empty_state in
  fst run = Ok (ChatOk "sess1" "hi" answer (JArr ([] ++ [turn])))
  /\ kv (snd run) !! "sess1"
     = Some (to_string (ser (JArr ([] ++ [turn]))),
             now answering_retrieved + SESSION_TTL answering)
  /\ (forallb json_safe ([] ++ [turn]) = true ->
      fst (getSession "sess1" (advance 60 (snd run))) = Ok (JArr ([] ++ [turn]))).
Proof.
  apply (chat_turn_appends_answer answering "sess1" "hi" JUndefined empty_state
           JNull (snd (getSession "sess1" empty_state))
           (JArr [passage_value (mkPassage "T" "C" None)]) answering_retrieved
           prompt_hi text_reply JNull [] 60);
    [reflexivity | vm_compute; reflexivity | vm_compute; reflexivity | reflexivity
    | vm_compute; reflexivity | reflexivity | in_range].
Defined.

Lemma chat_k_of_topK_witness :
  (truthy JUndefined = false -> chat_k JUndefined = Int 5)
  /\ chat_k (JNum 0) = Int (if 0 =? 0 then 5 else 0)
  /\ chat_k (JStr (decimal 0)) = Int 0.
Proof. apply (chat_k_of_topK JUndefined 0). reflexivity. Defined.

Lemma created_session_has_history_witness :
  let id := uuid_v4 answering (trace empty_state) in
  let created := post_sessions answering empty_state in
  fst created = mkResponse 201 (JObj [("sessionId", JStr id)])
  /\ fst (get_history id (advance 10 (snd created)))
     = mkResponse 200 (JObj [("sessionId", JStr id); ("history", JArr [])]).
Proof. apply (created_session_has_history answering 10 empty_state). in_range. Defined.

Lemma delete_creates_session_witness :
  let deleted := delete_session answering "ghost" empty_state in
  status (fst (get_history "ghost" empty_state)) = 404
  /\ fst deleted = mkResponse 200 (JObj [("sessionId", JStr "ghost"); ("history", JArr [])])
  /\ fst (get_history "ghost" (advance 10 (snd deleted)))
     = mkResponse 200 (JObj [("sessionId", JStr "ghost"); ("history", JArr [])]).
Proof.
  apply (delete_creates_session answering "ghost" 10 empty_state); [reflexivity | in_range].
Defined.

Definition three_items : list JSValue :=
  [JObj [("title", JStr "A"); ("contentSnippet", JStr "a"); ("link", JStr "http://a")];
   JObj [("content", JStr "b")];
   JObj []].

Definition one_feed : Ingestion :=
  {| EMBED_SIZE := 768;
     parseURL := fun _ _ => Ok (JObj [("items", JArr three_items)]);
     recreateCollection := fun _ _ _ => Throw (RequestError "exists");
     qdrant_upsert := fun _ _ _ => Ok tt |}.

Definition ingest_start : IngestState := {| world := empty_state; calls := [] |}.

Lemma fetchArticles_stops_at_limit_witness :
  exists articles s',
    fetchArticles answering one_feed (Some 2) ingest_start = (Ok articles, s')
    /\ Z.of_nat (length articles) = 2
    /\ calls s' = CallParseURL "https://feeds.bbci.co.uk/news/world/rss.xml"
                  :: calls ingest_start.
Proof.
  apply (fetchArticles_stops_at_limit answering one_feed 2
           (JObj [("items", JArr three_items)]) three_items ingest_start);
    [reflexivity | reflexivity | reflexivity | discriminate
    | vm_compute; split; discriminate].
Defined.

Definition untitled_article : JSValue :=
  JObj [("id", JStr "a1"); ("title", JStr "untitled"); ("content", JStr ""); ("link", JNull)].

Lemma ingestToQdrant_textless_articles_witness :
  let body := JObj [("points", JArr (map (fun a => point_of a JNull) [untitled_article]))] in
  ingestToQdrant answering one_feed [untitled_article] ingest_start
  = (qdrant_upsert one_feed ingest_start (COLLECTION answering) body,
     called (CallUpsert (COLLECTION answering) body) ingest_start).
Proof.
  apply (ingestToQdrant_textless_articles answering one_feed [untitled_article] ingest_start).
  reflexivity.
Defined.
